(** * The chain-state tracker of package protocol (protocol.go)

    The tracker keeps the node's current (height, block, snapshot)
    behind one mutex, lets goroutines wait for a height, and writes
    snapshots to the store from a background goroutine.

    The development has two layers, both read off protocol.go:
    - the bodies of the methods as functions on the guarded fields
      (what a method does between Lock and the deferred Unlock);
    - the goroutines of the package as a labelled transition system, one
      statement per step, with the mutex, the condition variable and the
      channels written out. Every access to the guarded fields is made
      with the mutex held (NewChain writes them before it starts a
      goroutine), so the interleaving of whole statements is what Go's
      memory model gives for this program. *)

From stdpp Require Import base numbers list option strings.

Local Open Scope Z_scope.

(** ** Machine integers *)

(** Go's uint64: values are kept in Z, additions are reduced modulo 2^64. *)
Definition wrap64 (z : Z) : Z := z mod 2 ^ 64.

Definition is_uint64 (z : Z) : bool := (0 <=? z) && (z <? 2 ^ 64).

(** ** Errors *)

(** Go's [error] values that occur in this file: the package's own
    [ErrTheDistantFuture], the two errors a [context.Context] reports from
    [Err()], and errors coming back from the store. A nil error is [None]. *)
Inductive error : Type :=
| ErrTheDistantFuture
| Canceled
| DeadlineExceeded
| NotFound
| errorString (msg : string).

(** ** Blocks *)

Module legacy.
(** [legacy.Block] is declared in another package; this file reads the
    header fields [Height] and [TimestampMS] only. *)
Record Block : Type := mkBlock { Height : Z; TimestampMS : Z }.
End legacy.

(** ** The store interface *)

Module Store.
(** [type Store interface]. Every method is a call into an external
    object, so it takes and returns the store's own state. A Go result
    [(p, err)] is a pair of an optional pointer and an optional error. *)
Record t (Snapshot St : Type) : Type := mk {
  Height : St -> Z * St;
  GetBlock : Z -> St -> (option legacy.Block * option error) * St;
  LatestSnapshot : St -> (option Snapshot * Z * option error) * St;
  SaveBlock : legacy.Block -> St -> option error * St;
  FinalizeBlock : Z -> St -> option error * St;
  SaveSnapshot : Z -> option Snapshot -> St -> option error * St
}.
Arguments mk {_ _}.
Arguments Height {_ _}.
Arguments GetBlock {_ _}.
Arguments LatestSnapshot {_ _}.
Arguments SaveBlock {_ _}.
Arguments FinalizeBlock {_ _}.
Arguments SaveSnapshot {_ _}.
End Store.

(** ** Log lines *)

Inductive LogEntry : Type :=
| LogPrintf (format : string) (v : Z)
| LogError (err : error) (key value : string).

Section protocol.

Context {Snapshot St : Type}.

(** [state.Empty()] *)
Variable Empty : Snapshot.

(** ** The guarded fields of [Chain.state] *)

Record ChainState : Type := mkChainState {
  height : Z;
  block : option legacy.Block;
  snapshot : option Snapshot
}.

Definition with_height (h : Z) (c : ChainState) : ChainState :=
  {| height := h; block := block c; snapshot := snapshot c |}.
Definition with_block (b : option legacy.Block) (c : ChainState) : ChainState :=
  {| height := height c; block := b; snapshot := snapshot c |}.
Definition with_snapshot (s : option Snapshot) (c : ChainState) : ChainState :=
  {| height := height c; block := block c; snapshot := s |}.

Record pendingSnapshot : Type := mkPending {
  ps_height : Z;
  ps_snapshot : option Snapshot
}.

(** ** Method bodies under the mutex *)

(** [func (c *Chain) Height() uint64] *)
Definition Height (c : ChainState) : Z := height c.

(** [func (c *Chain) TimestampMS() uint64] *)
Definition TimestampMS (c : ChainState) : Z :=
  match block c with
  | None => 0
  | Some b => legacy.TimestampMS b
  end.

(** [func (c *Chain) State()], which returns the block and snapshot pointers. *)
Definition State (c : ChainState) : option legacy.Block * option Snapshot :=
  (block c, snapshot c).

(** The test of [setState]: [b != nil && b.Height > c.state.height]. *)
Definition advances (b : option legacy.Block) (c : ChainState) : bool :=
  match b with
  | None => false
  | Some blk => legacy.Height blk >? height c
  end.

(** [func (c *Chain) setState(b *legacy.Block, s *state.Snapshot)].
    The boolean tells whether [c.state.cond.Broadcast()] was called. *)
Definition setState (b : option legacy.Block) (s : option Snapshot)
    (c : ChainState) : ChainState * bool :=
  let c1 := with_block b c in
  let c2 := with_snapshot s c1 in
  match b with
  | Some blk =>
      if legacy.Height blk >? height c2
      then (with_height (legacy.Height blk) c2, true)
      else (c2, false)
  | None => (c2, false)
  end.

(** Modelled from the spec: [setHeight] is called by the goroutine that
    [NewChain] starts for the [heights] channel and is defined in another
    file. The spec's advanceHeightOnly(h) "advances height and wakes waiters
    without touching block/snapshot, preserving the monotonicity
    invariant". *)
Definition setHeight (h : Z) (c : ChainState) : ChainState * bool :=
  if h >? height c then (with_height h c, true) else (c, false).

(** [const slop = 3] *)
Definition slop : Z := 3.

(** The test of [BlockSoonWaiter]: [height > c.Height()+slop], where [cur]
    is what [c.Height()] returned; the sum is a uint64. *)
Definition tooDistant (target cur : Z) : bool := target >? wrap64 (cur + slop).

(** The invariant as the spec words it: a nil block goes with height 0,
    and otherwise the block's height is the height. *)
Definition block_at_height (c : ChainState) : Prop :=
  match block c with
  | None => height c = 0
  | Some b => legacy.Height b = height c
  end.

(** What [setState] keeps instead: the block is not above the height. *)
Definition block_below_height (c : ChainState) : Prop :=
  ∀ blk, block c = Some blk → legacy.Height blk ≤ height c.

(** A state update, for sequences of calls. *)
Inductive update : Type :=
| UsetState (b : option legacy.Block) (s : option Snapshot)
| UsetHeight (h : Z).

Definition apply_update (u : update) (c : ChainState) : ChainState :=
  match u with
  | UsetState b s => fst (setState b s c)
  | UsetHeight h => fst (setHeight h c)
  end.

Definition apply_updates (us : list update) (c : ChainState) : ChainState :=
  fold_left (fun c u => apply_update u c) us c.

(** ** Shared memory and goroutines *)

(** What the goroutines share: the guarded fields, the mutex
    [c.state.cond.L] (the goroutine holding it, if any), the notify list of
    [c.state.cond] (the goroutines parked in [Wait]), the buffer of the
    channel [c.pendingSnapshots], the store and the log. [installed] is a
    history variable: the (block, snapshot) pairs in the order they were
    installed, the pair of [NewChain] first. The fields [InitialBlockHash],
    [MaxIssuanceWindow], [lastQueuedSnapshot], [txPool] and [assets_utxo]
    of [Chain] are written by [NewChain] at most and read nowhere in this
    file. *)
Record Shared : Type := mkShared {
  state : ChainState;
  cond_L : option nat;
  cond_notify : list nat;
  pendingSnapshots : list pendingSnapshot;
  store : St;
  logs : list LogEntry;
  installed : list (option legacy.Block * option Snapshot)
}.

Definition with_state (c : ChainState) (sh : Shared) : Shared :=
  mkShared c (cond_L sh) (cond_notify sh) (pendingSnapshots sh) (store sh)
    (logs sh) (installed sh).
Definition with_L (l : option nat) (sh : Shared) : Shared :=
  mkShared (state sh) l (cond_notify sh) (pendingSnapshots sh) (store sh)
    (logs sh) (installed sh).
Definition with_notify (n : list nat) (sh : Shared) : Shared :=
  mkShared (state sh) (cond_L sh) n (pendingSnapshots sh) (store sh)
    (logs sh) (installed sh).
Definition with_pending (q : list pendingSnapshot) (sh : Shared) : Shared :=
  mkShared (state sh) (cond_L sh) (cond_notify sh) q (store sh)
    (logs sh) (installed sh).
Definition with_store (st : St) (sh : Shared) : Shared :=
  mkShared (state sh) (cond_L sh) (cond_notify sh) (pendingSnapshots sh) st
    (logs sh) (installed sh).
Definition with_logs (l : list LogEntry) (sh : Shared) : Shared :=
  mkShared (state sh) (cond_L sh) (cond_notify sh) (pendingSnapshots sh)
    (store sh) l (installed sh).
Definition with_installed (h : list (option legacy.Block * option Snapshot))
    (sh : Shared) : Shared :=
  mkShared (state sh) (cond_L sh) (cond_notify sh) (pendingSnapshots sh)
    (store sh) (logs sh) h.

(** [sync.Mutex]: [Lock] blocks while the mutex is held, [Unlock] of a free
    mutex is a fatal error. *)
Definition Lock (i : nat) (sh : Shared) : option Shared :=
  match cond_L sh with
  | None => Some (with_L (Some i) sh)
  | Some _ => None
  end.

Definition Unlock (sh : Shared) : option Shared :=
  match cond_L sh with
  | Some _ => Some (with_L None sh)
  | None => None
  end.

(** [sync.Cond.Broadcast] wakes every goroutine parked in [Wait]. *)
Definition Broadcast (sh : Shared) : Shared := with_notify [] sh.

(** A goroutine is a call in progress: its arguments, its program counter
    and its locals. A channel made by the call is kept with the goroutine
    that sends on it, as the list of values sent so far. [idx] and [seen]
    are history variables: the position in [installed] of the pair a
    [setState] installed, and of the pair a [State] returned. *)
Inductive goroutine : Type :=
| go_setState (b : option legacy.Block) (s : option Snapshot) (pc : nat)
    (idx : option nat)
| go_Height (pc : nat) (ret : option Z)
| go_TimestampMS (pc : nat) (ret : option Z)
| go_State (pc : nat)
    (ret : option (option legacy.Block * option Snapshot)) (seen : nat)
| go_BlockWaiter (target : Z) (pc : nat) (ch : list unit)
| go_BlockSoonWaiter (target : Z) (ctx : option error) (pc : nat) (cur : Z)
    (w : nat) (ch : list (option error))
| go_heights (heights : list Z) (pc : nat) (h : Z)
| go_snapshots (ctx : option error) (pc : nat) (ps : option pendingSnapshot)
    (err : option error).

(** The values sent so far on the channel of a [BlockWaiter] call. *)
Definition waiter_chan (pool : list goroutine) (w : nat) : list unit :=
  match pool !! w with
  | Some (go_BlockWaiter _ _ ch) => ch
  | _ => []
  end.

(** The store behind the [Store] interface value passed to [NewChain]. *)
Variable sto : Store.t Snapshot St.

Local Open Scope nat_scope.

(** ** One statement of each method *)

(** The result of a step: the goroutine after it, the shared memory after
    it, and the goroutines it started. [None]: the goroutine cannot move
    (it is blocked, it has returned, or the statement is a fatal error). *)
Definition outcome : Type := option (goroutine * Shared * list goroutine).

(** [setState]: 0 Lock; 1 block = b; 2 snapshot = s; 3 the test;
    4 height = b.Height; 5 Broadcast; 6 deferred Unlock; 7 returned. *)
Definition step_setState (i : nat) (b : option legacy.Block)
    (s : option Snapshot) (pc : nat) (idx : option nat) (sh : Shared)
    : outcome :=
  match pc with
  | 0 => sh' ← Lock i sh; Some (go_setState b s 1 idx, sh', [])
  | 1 => Some (go_setState b s 2 idx,
               with_state (with_block b (state sh)) sh, [])
  | 2 => Some (go_setState b s 3 (Some (length (installed sh))),
               with_installed (installed sh ++ [(b, s)])
                 (with_state (with_snapshot s (state sh)) sh), [])
  | 3 => if advances b (state sh)
         then Some (go_setState b s 4 idx, sh, [])
         else Some (go_setState b s 6 idx, sh, [])
  | 4 => blk ← b;
         Some (go_setState b s 5 idx,
               with_state (with_height (legacy.Height blk) (state sh)) sh, [])
  | 5 => Some (go_setState b s 6 idx, Broadcast sh, [])
  | 6 => sh' ← Unlock sh; Some (go_setState b s 7 idx, sh', [])
  | _ => None
  end.

(** [Height]: 0 Lock; 1 read the field; 2 deferred Unlock; 3 returned. *)
Definition step_Height (i : nat) (pc : nat) (ret : option Z) (sh : Shared)
    : outcome :=
  match pc with
  | 0 => sh' ← Lock i sh; Some (go_Height 1 ret, sh', [])
  | 1 => Some (go_Height 2 (Some (Height (state sh))), sh, [])
  | 2 => sh' ← Unlock sh; Some (go_Height 3 ret, sh', [])
  | _ => None
  end.

(** [TimestampMS]: 0 Lock; 1 the nil test (return 0 when nil);
    2 read block.TimestampMS; 3 deferred Unlock; 4 returned. *)
Definition step_TimestampMS (i : nat) (pc : nat) (ret : option Z)
    (sh : Shared) : outcome :=
  match pc with
  | 0 => sh' ← Lock i sh; Some (go_TimestampMS 1 ret, sh', [])
  | 1 => match block (state sh) with
         | None => Some (go_TimestampMS 3 (Some 0%Z), sh, [])
         | Some _ => Some (go_TimestampMS 2 ret, sh, [])
         end
  | 2 => blk ← block (state sh);
         Some (go_TimestampMS 3 (Some (legacy.TimestampMS blk)), sh, [])
  | 3 => sh' ← Unlock sh; Some (go_TimestampMS 4 ret, sh', [])
  | _ => None
  end.

(** [State]: 0 Lock; 1 read both fields; 2 deferred Unlock; 3 returned. *)
Definition step_State (i : nat) (pc : nat)
    (ret : option (option legacy.Block * option Snapshot)) (seen : nat)
    (sh : Shared) : outcome :=
  match pc with
  | 0 => sh' ← Lock i sh; Some (go_State 1 ret seen, sh', [])
  | 1 => Some (go_State 2 (Some (State (state sh)))
                 (length (installed sh) - 1), sh, [])
  | 2 => sh' ← Unlock sh; Some (go_State 3 ret seen, sh', [])
  | _ => None
  end.

(** The goroutine of [BlockWaiter]: 0 Lock; 1 the loop test
    [c.state.height < height]; 2-5 [c.state.cond.Wait()], which adds the
    goroutine to the notify list, unlocks, sleeps until a Broadcast has
    removed it from the list and locks again; 6 [ch <- struct{}{}] on a
    channel of capacity 1; 7 deferred Unlock; 8 returned. *)
Definition step_BlockWaiter (i : nat) (target : Z) (pc : nat)
    (ch : list unit) (sh : Shared) : outcome :=
  match pc with
  | 0 => sh' ← Lock i sh; Some (go_BlockWaiter target 1 ch, sh', [])
  | 1 => if (height (state sh) <? target)%Z
         then Some (go_BlockWaiter target 2 ch, sh, [])
         else Some (go_BlockWaiter target 6 ch, sh, [])
  | 2 => Some (go_BlockWaiter target 3 ch,
               with_notify (cond_notify sh ++ [i]) sh, [])
  | 3 => sh' ← Unlock sh; Some (go_BlockWaiter target 4 ch, sh', [])
  | 4 => if bool_decide (i ∈ cond_notify sh) then None
         else Some (go_BlockWaiter target 5 ch, sh, [])
  | 5 => sh' ← Lock i sh; Some (go_BlockWaiter target 1 ch, sh', [])
  | 6 => if length ch <? 1
         then Some (go_BlockWaiter target 7 (ch ++ [()]), sh, [])
         else None
  | 7 => sh' ← Unlock sh; Some (go_BlockWaiter target 8 ch, sh', [])
  | _ => None
  end.

(** The goroutine of [BlockSoonWaiter]: 0-2 the call [c.Height()];
    3 the test [height > c.Height()+slop]; 4 [ch <- ErrTheDistantFuture];
    5 returned; 6 the call [c.BlockWaiter(height)], which starts a
    goroutine; 7 the select, where [choice] picks the case: the waiter's
    channel ([true]) or [ctx.Done()] ([false]); 8 [ch <- nil];
    9 [ch <- ctx.Err()]. *)
Definition step_BlockSoonWaiter (i : nat) (choice : bool)
    (pool : list goroutine) (target : Z) (ctx : option error) (pc : nat)
    (cur : Z) (w : nat) (ch : list (option error)) (sh : Shared) : outcome :=
  match pc with
  | 0 => sh' ← Lock i sh;
         Some (go_BlockSoonWaiter target ctx 1 cur w ch, sh', [])
  | 1 => Some (go_BlockSoonWaiter target ctx 2 (Height (state sh)) w ch,
               sh, [])
  | 2 => sh' ← Unlock sh;
         Some (go_BlockSoonWaiter target ctx 3 cur w ch, sh', [])
  | 3 => if tooDistant target cur
         then Some (go_BlockSoonWaiter target ctx 4 cur w ch, sh, [])
         else Some (go_BlockSoonWaiter target ctx 6 cur w ch, sh, [])
  | 4 => if length ch <? 1
         then Some (go_BlockSoonWaiter target ctx 5 cur w
                      (ch ++ [Some ErrTheDistantFuture]), sh, [])
         else None
  | 6 => Some (go_BlockSoonWaiter target ctx 7 cur (length pool) ch, sh,
               [go_BlockWaiter target 0 []])
  | 7 => if choice
         then match waiter_chan pool w with
              | [] => None
              | _ :: _ => Some (go_BlockSoonWaiter target ctx 8 cur w ch,
                                sh, [])
              end
         else match ctx with
              | None => None
              | Some _ => Some (go_BlockSoonWaiter target ctx 9 cur w ch,
                                sh, [])
              end
  | 8 => if length ch <? 1
         then Some (go_BlockSoonWaiter target ctx 5 cur w (ch ++ [None]),
                    sh, [])
         else None
  | 9 => e ← ctx;
         if length ch <? 1
         then Some (go_BlockSoonWaiter target ctx 5 cur w (ch ++ [Some e]),
                    sh, [])
         else None
  | _ => None
  end.

(** The goroutine [for h := range heights { c.setHeight(h) }]: 0 receive
    the next value; 1-5 the call [setHeight(h)] (see [setHeight]): Lock,
    the test, the assignment, Broadcast, Unlock. *)
Definition step_heights (i : nat) (heights : list Z) (pc : nat) (h : Z)
    (sh : Shared) : outcome :=
  match pc with
  | 0 => match heights with
         | [] => None
         | h' :: rest => Some (go_heights rest 1 h', sh, [])
         end
  | 1 => sh' ← Lock i sh; Some (go_heights heights 2 h, sh', [])
  | 2 => if (h >? height (state sh))%Z
         then Some (go_heights heights 3 h, sh, [])
         else Some (go_heights heights 5 h, sh, [])
  | 3 => Some (go_heights heights 4 h,
               with_state (with_height h (state sh)) sh, [])
  | 4 => Some (go_heights heights 5 h, Broadcast sh, [])
  | 5 => sh' ← Unlock sh; Some (go_heights heights 0 h, sh', [])
  | _ => None
  end.

(** The goroutine that saves snapshots: 0 the select, where [choice] picks
    the case: [ctx.Done()] ([true], return) or a receive from
    [c.pendingSnapshots] ([false]); 1 [err := store.SaveSnapshot(...)];
    2 the test [err != nil]; 3 [log.Error]; 4 returned. *)
Definition step_snapshots (choice : bool) (ctx : option error) (pc : nat)
    (ps : option pendingSnapshot) (err : option error) (sh : Shared)
    : outcome :=
  match pc with
  | 0 => if choice
         then match ctx with
              | None => None
              | Some _ => Some (go_snapshots ctx 4 ps err, sh, [])
              end
         else match pendingSnapshots sh with
              | [] => None
              | p :: rest => Some (go_snapshots ctx 1 (Some p) err,
                                   with_pending rest sh, [])
              end
  | 1 => p ← ps;
         let '(e, st') :=
           Store.SaveSnapshot sto (ps_height p) (ps_snapshot p) (store sh) in
         Some (go_snapshots ctx 2 ps e, with_store st' sh, [])
  | 2 => match err with
         | Some _ => Some (go_snapshots ctx 3 ps err, sh, [])
         | None => Some (go_snapshots ctx 0 ps err, sh, [])
         end
  | 3 => e ← err;
         Some (go_snapshots ctx 0 ps err,
               with_logs (logs sh ++ [LogError e "at" "saving snapshot"]) sh,
               [])
  | _ => None
  end.

Definition gstep (i : nat) (choice : bool) (pool : list goroutine)
    (g : goroutine) (sh : Shared) : outcome :=
  match g with
  | go_setState b s pc idx => step_setState i b s pc idx sh
  | go_Height pc ret => step_Height i pc ret sh
  | go_TimestampMS pc ret => step_TimestampMS i pc ret sh
  | go_State pc ret seen => step_State i pc ret seen sh
  | go_BlockWaiter target pc ch => step_BlockWaiter i target pc ch sh
  | go_BlockSoonWaiter target ctx pc cur w ch =>
      step_BlockSoonWaiter i choice pool target ctx pc cur w ch sh
  | go_heights hs pc h => step_heights i hs pc h sh
  | go_snapshots ctx pc ps err => step_snapshots choice ctx pc ps err sh
  end.

(** ** The transition system *)

(** A configuration: the shared memory and the goroutines; a goroutine is
    named by its position in [pool]. *)
Record Config : Type := mkConfig {
  shared : Shared;
  pool : list goroutine
}.

(** What can happen next: goroutine [i] executes its next statement; some
    other code calls a method of the chain (the call runs in a goroutine of
    its own); a context is cancelled or times out; a value is sent on
    [c.pendingSnapshots] (the senders are in another file). *)
Inductive label : Type :=
| Run (i : nat) (choice : bool)
| Call (g : goroutine)
| Cancel (i : nat) (e : error)
| Send (ps : pendingSnapshot).

Definition block_typed (b : option legacy.Block) : bool :=
  match b with
  | None => true
  | Some blk =>
      is_uint64 (legacy.Height blk) && is_uint64 (legacy.TimestampMS blk)
  end.

(** [ctx.Err()] is nil, [Canceled] or [DeadlineExceeded]. *)
Definition ctx_err (e : error) : bool :=
  match e with
  | Canceled | DeadlineExceeded => true
  | _ => false
  end.

Definition ctx_typed (ctx : option error) : bool :=
  match ctx with
  | None => true
  | Some e => ctx_err e
  end.

(** The calls other code can make, at their first statement and with
    arguments of the Go types. A [go_heights hs] started this way stands
    for other code of the package calling [setHeight] on the values of
    [hs] in turn. *)
Definition entry (g : goroutine) : bool :=
  match g with
  | go_setState b _ 0 None => block_typed b
  | go_Height 0 None => true
  | go_TimestampMS 0 None => true
  | go_State 0 None 0 => true
  | go_BlockWaiter target 0 [] => is_uint64 target
  | go_BlockSoonWaiter target ctx 0 0%Z 0 [] =>
      is_uint64 target && ctx_typed ctx
  | go_heights hs 0 0%Z => forallb is_uint64 hs
  | _ => false
  end.

(** Cancelling the context a goroutine selects on. *)
Definition cancel (e : error) (g : goroutine) : option goroutine :=
  match g with
  | go_BlockSoonWaiter target None pc cur w ch =>
      Some (go_BlockSoonWaiter target (Some e) pc cur w ch)
  | go_snapshots None pc ps err => Some (go_snapshots (Some e) pc ps err)
  | _ => None
  end.

Definition step (l : label) (cfg : Config) : option Config :=
  match l with
  | Run i choice =>
      g ← pool cfg !! i;
      '(g', sh', new) ← gstep i choice (pool cfg) g (shared cfg);
      Some (mkConfig sh' (<[i := g']> (pool cfg) ++ new))
  | Call g =>
      if entry g then Some (mkConfig (shared cfg) (pool cfg ++ [g]))
      else None
  | Cancel i e =>
      if ctx_err e
      then g ← pool cfg !! i;
           g' ← cancel e g;
           Some (mkConfig (shared cfg) (<[i := g']> (pool cfg)))
      else None
  | Send ps =>
      if length (pendingSnapshots (shared cfg)) <? 1
      then Some (mkConfig
                   (with_pending (pendingSnapshots (shared cfg) ++ [ps])
                      (shared cfg))
                   (pool cfg))
      else None
  end.

Fixpoint run (ls : list label) (cfg : Config) : option Config :=
  match ls with
  | [] => Some cfg
  | l :: ls' => cfg' ← step l cfg; run ls' cfg'
  end.

(** ** NewChain *)

(** [func NewChain(ctx, initialBlockHash, store, txPool, heights)]:
    [st] is the state of [store] at the call, [heights] is [None] for a nil
    channel and otherwise the values the channel will deliver. The result
    is the Go pair (chain, error); the chain is given with the goroutines
    [NewChain] has started. *)
Definition NewChain (ctx : option error) (st : St) (heights : option (list Z))
    : option Config * option error :=
  let '(h0, st1) := Store.Height sto st in
  let lg := [LogPrintf "bytom's Height:%v." h0] in
  let '(h, st2) := Store.Height sto st1 in
  let '(b, s, st3) :=
    if (h <? 1)%Z then (None, Some Empty, st2)
    else
      let '(b, _, st') := Store.GetBlock sto h st2 in
      let '(s, _, _, st'') := Store.LatestSnapshot sto st' in
      (b, s, st'') in
  let ingest :=
    match heights with
    | None => []
    | Some hs => [go_heights hs 0 0%Z]
    end in
  (Some (mkConfig
           (mkShared (mkChainState h b s) None [] [] st3 lg [(b, s)])
           (ingest ++ [go_snapshots ctx 0 None None])),
   None).

(** The configurations a chain can be in: what [NewChain] returns, and
    whatever follows by steps. *)
Inductive reachable : Config -> Prop :=
| reachable_NewChain ctx st heights cfg err :
    ctx_typed ctx = true ->
    NewChain ctx st heights = (Some cfg, err) ->
    reachable cfg
| reachable_step l cfg cfg' :
    reachable cfg -> step l cfg = Some cfg' -> reachable cfg'.

(** ** Invariants of the transition system *)

(** The statements a goroutine executes between [Lock] and [Unlock]. *)
Definition critical (g : goroutine) : bool :=
  match g with
  | go_setState _ _ pc _ => (1 <=? pc) && (pc <=? 6)
  | go_Height pc _ => (1 <=? pc) && (pc <=? 2)
  | go_TimestampMS pc _ => (1 <=? pc) && (pc <=? 3)
  | go_State pc _ _ => (1 <=? pc) && (pc <=? 2)
  | go_BlockWaiter _ pc _ =>
      ((1 <=? pc) && (pc <=? 3)) || ((6 <=? pc) && (pc <=? 7))
  | go_BlockSoonWaiter _ _ pc _ _ _ => (1 <=? pc) && (pc <=? 2)
  | go_heights _ pc _ => (2 <=? pc) && (pc <=? 5)
  | go_snapshots _ _ _ _ => false
  end.

(** A bound on the statements a goroutine in its critical section still
    executes before it releases the mutex. *)
Definition steps_to_unlock (g : goroutine) : nat :=
  match g with
  | go_setState _ _ pc _ => 7 - pc
  | go_Height pc _ => 3 - pc
  | go_TimestampMS pc _ => 4 - pc
  | go_State pc _ _ => 3 - pc
  | go_BlockWaiter _ pc _ =>
      match pc with
      | 1 => 3
      | 2 => 2
      | 3 => 1
      | 6 => 2
      | 7 => 1
      | _ => 0
      end
  | go_BlockSoonWaiter _ _ pc _ _ _ => 3 - pc
  | go_heights _ pc _ => 6 - pc
  | go_snapshots _ _ _ _ => 0
  end.

(** The next [m] statements of the goroutine that holds the mutex; no
    statement when the mutex is free. *)
Definition holder_steps (m : nat) (cfg : Config) : list label :=
  match cond_L (shared cfg) with
  | Some j => replicate m (Run j false)
  | None => []
  end.

(** The goroutine has raised the height and has not called [Broadcast]
    yet. *)
Definition broadcast_pending (g : goroutine) : bool :=
  match g with
  | go_setState _ _ 5 _ => true
  | go_heights _ 4 _ => true
  | _ => false
  end.

(** What holds of one goroutine, whatever the others do. *)
Definition ginv (sh : Shared) (g : goroutine) : Prop :=
  match g with
  | go_setState b s pc idx =>
      (pc ≤ 2 → idx = None) ∧
      (3 ≤ pc → ∃ k, idx = Some k ∧ 1 ≤ k ∧ installed sh !! k = Some (b, s)) ∧
      (pc = 2 → block (state sh) = b) ∧
      (pc = 4 → advances b (state sh) = true) ∧
      (5 ≤ pc → ∀ blk, b = Some blk →
         (legacy.Height blk ≤ height (state sh))%Z) ∧
      pc ≤ 7
  | go_Height pc ret => True
  | go_TimestampMS pc ret => pc = 2 → block (state sh) ≠ None
  | go_State pc ret seen =>
      (pc ≤ 1 → ret = None) ∧
      (2 ≤ pc → ∃ p, ret = Some p ∧ installed sh !! seen = Some p)
  | go_BlockWaiter target pc ch =>
      (pc ≤ 6 → ch = []) ∧
      (7 ≤ pc → ch = [()]) ∧
      (6 ≤ pc → (target ≤ height (state sh))%Z) ∧
      (pc = 2 ∨ pc = 3 → (height (state sh) < target)%Z)
  | go_BlockSoonWaiter target ctx pc cur w ch =>
      ctx_typed ctx = true ∧
      (pc ≠ 5 → ch = []) ∧
      (pc = 4 → tooDistant target cur = true) ∧
      (6 ≤ pc → tooDistant target cur = false) ∧
      (pc = 9 → ctx ≠ None) ∧
      (pc = 5 →
         (tooDistant target cur = true ∧ ch = [Some ErrTheDistantFuture]) ∨
         (tooDistant target cur = false ∧
          (ch = [None] ∨ ∃ e, ctx_err e = true ∧ ch = [Some e])))
  | go_heights hs pc h => pc = 3 → (height (state sh) < h)%Z
  | go_snapshots ctx pc ps err =>
      (pc = 1 → ps ≠ None) ∧ (pc = 3 → err ≠ None)
  end.

(** What holds of every configuration a chain can be in. *)
Record Inv (cfg : Config) : Prop := mkInv {
  inv_holder : ∀ j g,
    pool cfg !! j = Some g → critical g = true →
    cond_L (shared cfg) = Some j;
  inv_held : ∀ j,
    cond_L (shared cfg) = Some j →
    ∃ g, pool cfg !! j = Some g ∧ critical g = true;
  inv_local : ∀ j g, pool cfg !! j = Some g → ginv (shared cfg) g;
  inv_nonempty : 1 ≤ length (installed (shared cfg));
  inv_latest :
    (∃ j b s idx, pool cfg !! j = Some (go_setState b s 2 idx)) ∨
    last (installed (shared cfg)) = Some (State (state (shared cfg)));
  inv_parked : ∀ j,
    j ∈ cond_notify (shared cfg) →
    ∃ target pc ch,
      pool cfg !! j = Some (go_BlockWaiter target pc ch) ∧
      (pc = 3 ∨ pc = 4) ∧
      ((height (state (shared cfg)) < target)%Z ∨
       ∃ k g, pool cfg !! k = Some g ∧ broadcast_pending g = true);
  inv_installed : ∀ k,
    1 ≤ k < length (installed (shared cfg)) →
    ∃ j b s pc, pool cfg !! j = Some (go_setState b s pc (Some k))
}.

(** What the other goroutines may do to the shared memory while [g] is
    where it is: the height does not go down, [installed] only grows, and
    the guarded fields stay as they are while [g] holds the mutex. *)
Definition rely (g : goroutine) (sh sh' : Shared) : Prop :=
  (height (state sh) ≤ height (state sh'))%Z ∧
  installed sh `prefix_of` installed sh' ∧
  (critical g = true → state sh' = state sh).

End protocol.

Arguments Inv {Snapshot St} cfg.

(** ** Blocks and stores used in the examples *)

Definition block3 : legacy.Block := legacy.mkBlock 3 30.
Definition block5 : legacy.Block := legacy.mkBlock 5 50.


(** A store that holds nothing yet: height 0, every lookup fails, every
    write succeeds. Snapshots are numbered. *)
Definition emptyStore : Store.t nat unit :=
  Store.mk
    (fun st => (0, st))
    (fun _ st => (None, Some NotFound, st))
    (fun st => (None, 0, Some NotFound, st))
    (fun _ st => (None, st))
    (fun _ st => (None, st))
    (fun _ _ st => (None, st)).

(** A store at height [h] whose block at that height is missing, and whose
    snapshot writes fail. Its state is the list of heights for which
    [SaveSnapshot] was called. *)
Definition brokenStore (h : Z) : Store.t nat (list Z) :=
  Store.mk
    (fun st => (h, st))
    (fun _ st => (None, Some NotFound, st))
    (fun st => (Some 7%nat, h, None, st))
    (fun _ st => (None, st))
    (fun _ st => (None, st))
    (fun h' _ st => (Some (errorString "disk full"), st ++ [h'])).

(** A store that holds the block [b] at its height and the snapshot [s]. *)
Definition storeAt (b : legacy.Block) (s : nat) : Store.t nat unit :=
  Store.mk
    (fun st => (legacy.Height b, st))
    (fun h st =>
       if decide (h = legacy.Height b) then (Some b, None, st)
       else (None, Some NotFound, st))
    (fun st => (Some s, legacy.Height b, None, st))
    (fun _ st => (None, st))
    (fun _ st => (None, st))
    (fun _ _ st => (None, st)).

(** The last block a uint64 height can number. *)
Definition topBlock : legacy.Block := legacy.mkBlock (2 ^ 64 - 1) 0.

(** A chain at height 1 whose snapshot goroutine has one request waiting. *)
Definition savingConfig : @Config nat (list Z) :=
  mkConfig
    (mkShared (mkChainState 1 None (Some 7%nat)) None []
       [mkPending 1 (Some 7%nat)] [] [LogPrintf "bytom's Height:%v." 1]
       [(None, Some 7%nat)])
    [go_snapshots None 0 None None].

(** A chain started on the empty store. *)
Definition freshConfig : @Config nat unit :=
  mkConfig
    (mkShared (mkChainState 0 None (Some 7%nat)) None [] [] ()
       [LogPrintf "bytom's Height:%v." 0] [(None, Some 7%nat)])
    [go_snapshots None 0 None None].

(** [setState] with the block at height 5 runs to its end as goroutine 1,
    then a [State()] call, goroutine 2, takes the mutex. *)
Definition readingTrace : list (@label nat) :=
  Call (go_setState (Some block5) (Some 8%nat) 0 None) ::
  replicate 7 (Run 1 false) ++ [Call (go_State 0 None 0); Run 2 false].

Definition readingConfig : @Config nat unit :=
  Eval vm_compute in default freshConfig (run emptyStore readingTrace freshConfig).

(** [readingConfig] after the read of the [State()] call. *)
Definition readConfig : @Config nat unit :=
  Eval vm_compute in
    default readingConfig (step emptyStore (Run 2 false) readingConfig).

(** A chain started on a store at height 5, and a [BlockWaiter(3)] call
    that has not run yet. *)
Definition waitingConfig : @Config nat unit :=
  mkConfig
    (mkShared (mkChainState 5 (Some block5) (Some 7%nat)) None [] [] ()
       [LogPrintf "bytom's Height:%v." 5] [(Some block5, Some 7%nat)])
    [go_snapshots None 0 None None; go_BlockWaiter 3 0 []].

(** ** Further definitions: sequences of calls and what goroutines have read *)

Section further.

Context {Snapshot St : Type}.

(** [setState] called with each pair of [calls] in turn. *)
Definition setStates (calls : list (option legacy.Block * option Snapshot))
    (c : @ChainState Snapshot) : @ChainState Snapshot :=
  fold_left (fun c call => (setState call.1 call.2 c).1) calls c.

(** The greatest of [h] and the heights of the non-nil blocks of [calls]. *)
Definition highest (h : Z)
    (calls : list (option legacy.Block * option Snapshot)) : Z :=
  fold_left
    (fun h call =>
       match call.1 with
       | Some blk => Z.max h (legacy.Height blk)
       | None => h
       end)
    calls h.

(** What a goroutine holds of the shared memory in its locals: a height
    that [Height] or [BlockSoonWaiter] has read is not above the height;
    the goroutine a [BlockSoonWaiter] has started is a [BlockWaiter] for
    the same height; a nil result is sent only once the height is reached,
    and a context error only once the context reports it. *)
Definition reads_below (sh : @Shared Snapshot St)
    (pl : list (@goroutine Snapshot)) (g : @goroutine Snapshot) : Prop :=
  match g with
  | go_Height pc ret => ∀ v, ret = Some v → v ≤ height (state sh)
  | go_BlockSoonWaiter target ctx pc cur w ch =>
      ((2 ≤ pc)%nat → cur ≤ height (state sh)) ∧
      ((7 ≤ pc)%nat ∨ (pc = 5%nat ∧ tooDistant target cur = false) →
       ∃ pc' ch', pl !! w = Some (go_BlockWaiter target pc' ch')) ∧
      (pc = 8%nat → target ≤ height (state sh)) ∧
      (ch = [None] → target ≤ height (state sh)) ∧
      (∀ e, ch = [Some e] → ctx_err e = true → ctx = Some e) ∧
      (pc ≤ 9)%nat
  | _ => True
  end.

Definition is_snapshots (g : @goroutine Snapshot) : bool :=
  match g with
  | go_snapshots _ _ _ _ => true
  | _ => false
  end.

(** The statements a [BlockSoonWaiter] goroutine whose context is done
    still executes, at most, before it has sent its result. *)
Definition steps_to_result (pc : nat) : nat :=
  match pc with
  | 0 => 7
  | 1 => 6
  | 2 => 5
  | 3 => 4
  | 4 => 1
  | 6 => 3
  | 7 => 2
  | 8 => 1
  | 9 => 1
  | _ => 0
  end%nat.

(** The result [r] that a [BlockSoonWaiter] goroutine at [pc] sends when
    its context is done with [e] and it takes the context's branch of its
    select. *)
Definition soon_result (e : error) (pc : nat) (ch : list (option error))
    (r : option error) : Prop :=
  match pc with
  | 4 => r = Some ErrTheDistantFuture
  | 5 => ch = [r]
  | 6 | 7 | 9 => r = Some e
  | 8 => r = None
  | _ => r = Some e ∨ r = Some ErrTheDistantFuture
  end%nat.

End further.

(** ** Chains used in the examples of the further properties *)

(** What [NewChain] returns on a store that holds the block at height 5. *)
Definition chain5Config : @Config nat unit :=
  mkConfig
    (mkShared (mkChainState 5 (Some block5) (Some 7%nat)) None [] [] ()
       [LogPrintf "bytom's Height:%v." 5] [(Some block5, Some 7%nat)])
    [go_snapshots None 0 None None].

(** [BlockSoonWaiter(ctx, 7)] is called at height 5 and runs up to its
    select; the [BlockWaiter] it has started runs until it sleeps; then the
    context is cancelled. *)
Definition soonTrace : list (@label nat) :=
  Call (go_BlockSoonWaiter 7 None 0 0 0 []) ::
  replicate 5 (Run 1 false) ++ replicate 4 (Run 2 false) ++
  [Cancel 1 Canceled].

Definition soonConfig : @Config nat unit :=
  Eval vm_compute in
    default chain5Config (run (storeAt block5 7) soonTrace chain5Config).

(** [soonConfig] after [BlockSoonWaiter] has taken the context's branch of
    its select and has sent the context's error. *)
Definition soonDoneConfig : @Config nat unit :=
  Eval vm_compute in
    default soonConfig
      (run (storeAt block5 7) (replicate 2 (Run 1 false)) soonConfig).

(** What [NewChain] returns on [brokenStore 1]. *)
Definition brokenConfig : @Config nat (list Z) :=
  mkConfig
    (mkShared (mkChainState 1 None (Some 7%nat)) None [] [] []
       [LogPrintf "bytom's Height:%v." 1] [(None, Some 7%nat)])
    [go_snapshots None 0 None None].

(** The context is cancelled, the goroutine that saves snapshots returns,
    and then a request is sent. *)
Definition stoppedTrace : list (@label nat) :=
  [Cancel 0 Canceled; Run 0 true; Send (mkPending 1 (Some 7%nat))].

Definition stoppedConfig : @Config nat (list Z) :=
  Eval vm_compute in
    default brokenConfig (run (brokenStore 1) stoppedTrace brokenConfig).

(** A chain at height 0 and a [BlockWaiter(3)] call that has not run yet. *)
Definition parkingConfig : @Config nat unit :=
  mkConfig (shared freshConfig) (pool freshConfig ++ [go_BlockWaiter 3 0 []]).

(** * Proofs *)

(** Case analysis on one statement of one goroutine. *)
Ltac gstep_inv H :=
  unfold gstep, step_setState, step_Height, step_TimestampMS, step_State,
    step_BlockWaiter, step_BlockSoonWaiter, step_heights, step_snapshots,
    Lock, Unlock, Broadcast in H;
  repeat (first
            [ case_match
            | match goal with
              | H : (?x ≫= _) = Some _ |- _ => destruct x eqn:?; simpl in H
              end ];
          simplify_option_eq).

(** Uses the premises of the hypotheses that arithmetic decides. *)
Ltac spec_arith :=
  repeat match goal with
         | H : _ ∧ _ |- _ => destruct H
         | H : ∃ _, _ |- _ => destruct H
         | H : ?P → _ |- _ =>
             match type of P with
             | Prop =>
                 first
                   [ let HP := fresh in
                     assert (HP : P) by lia; specialize (H HP); clear HP
                   | let HP := fresh in
                     assert (HP : ¬ P) by lia; clear H HP ]
             end
         end.

Ltac fin :=
  repeat split; intros; simplify_eq; spec_arith;
  try lia; try done; try congruence; eauto;
  try (unfold advances in *; repeat case_match; simplify_eq; lia).

Section invariants.
Context {Snapshot St : Type} (Empty : Snapshot) (sto : Store.t Snapshot St).
Implicit Types (sh : @Shared Snapshot St) (g : @goroutine Snapshot).
Implicit Types (cfg : @Config Snapshot St).

Local Open Scope nat_scope.

Lemma gstep_mono i c pl g sh g' sh' new :
  gstep sto i c pl g sh = Some (g', sh', new) →
  ginv sh g →
  (height (state sh) ≤ height (state sh'))%Z ∧
  installed sh `prefix_of` installed sh'.
Proof.
  intros H Hg. gstep_inv H; simpl in *; split; try done; try lia;
    try (by apply prefix_app_r).
Qed.

Lemma gstep_frame i c pl g sh g' sh' new :
  gstep sto i c pl g sh = Some (g', sh', new) →
  critical g = false →
  state sh' = state sh ∧ installed sh' = installed sh.
Proof.
  intros H Hc. gstep_inv H; simpl in *; try done.
Qed.

Lemma gstep_local i c pl g sh g' sh' new :
  gstep sto i c pl g sh = Some (g', sh', new) →
  1 ≤ length (installed sh) →
  (∀ ret seen, g = go_State 1 ret seen →
     last (installed sh) = Some (State (state sh))) →
  ginv sh g → ginv sh' g'.
Proof.
  intros H Hne Hlast Hg. gstep_inv H; simpl in *; spec_arith; subst; simpl.
  all: try (fin; fail).
  - repeat split; intros; try lia.
    eexists; split; [done|]. split; [lia|]. by apply list_lookup_middle.
  - repeat split; intros; try lia.
    eexists; split; [done|]. rewrite Nat.sub_1_r, <- last_lookup. eauto.
  - repeat split; intros; try lia; try done. right. split; [done|].
    right. eauto.
Qed.

Lemma gstep_new i c pl g sh g' sh' new n :
  gstep sto i c pl g sh = Some (g', sh', new) →
  n ∈ new →
  ∃ target, n = go_BlockWaiter target 0 [].
Proof.
  intros H Hn. gstep_inv H; simpl in *;
    try (by apply not_elem_of_nil in Hn).
  apply list_elem_of_singleton in Hn. eauto.
Qed.

(** How a step moves the mutex. *)
Lemma gstep_lock i c pl g sh g' sh' new :
  gstep sto i c pl g sh = Some (g', sh', new) →
  match critical g, critical g' with
  | false, false => cond_L sh' = cond_L sh
  | false, true => cond_L sh = None ∧ cond_L sh' = Some i
  | true, true => cond_L sh' = cond_L sh
  | true, false => cond_L sh' = None
  end.
Proof. intros H. gstep_inv H; simpl; done. Qed.

(** How a step moves the notify list. *)
Lemma gstep_notify i c pl g sh g' sh' new :
  gstep sto i c pl g sh = Some (g', sh', new) →
  ginv sh g →
  (cond_notify sh' = cond_notify sh ∧
   (broadcast_pending g' = true ∨
    height (state sh') = height (state sh)) ∧
   broadcast_pending g = false ∧
   (∀ target ch, g = go_BlockWaiter target 4 ch → i ∉ cond_notify sh)) ∨
  (cond_notify sh' = cond_notify sh ++ [i] ∧
   state sh' = state sh ∧
   ∃ target ch, g = go_BlockWaiter target 2 ch ∧
     g' = go_BlockWaiter target 3 ch ∧ (height (state sh) < target)%Z) ∨
  cond_notify sh' = [].
Proof.
  intros H Hg. gstep_inv H; simpl in *; spec_arith.
  all: first
    [ by right; right
    | right; left; split; [done|]; split; [done|];
      eexists _, _; split; [done|]; split; [done|lia]
    | left; repeat split; eauto; intros; simplify_eq;
      try (by apply bool_decide_eq_false_1); fail
    ].
Qed.

(** The two statements of [setState] that write the pair. *)
Lemma gstep_latest i c pl g sh g' sh' new :
  gstep sto i c pl g sh = Some (g', sh', new) →
  (State (state sh') = State (state sh) ∧ installed sh' = installed sh ∧
   (∀ b s idx, g ≠ go_setState b s 2 idx) ∧
   (∀ b s idx, g' ≠ go_setState b s 2 idx)) ∨
  (∃ b s idx, g = go_setState b s 1 idx ∧ g' = go_setState b s 2 idx ∧
     installed sh' = installed sh) ∨
  (∃ b s idx, g = go_setState b s 2 idx ∧
     g' = go_setState b s 3 (Some (length (installed sh))) ∧
     installed sh' = installed sh ++ [(b, s)] ∧
     state sh' = with_snapshot s (state sh)).
Proof.
  intros H. gstep_inv H; simpl in *;
    try (left; repeat split; eauto; intros; congruence);
    try (right; left; eauto 10; fail);
    try (right; right; eauto 10; fail).
Qed.

(** A [setState] keeps its index once it has one. *)
Lemma gstep_idx i c pl b s pc k sh g' sh' new :
  gstep sto i c pl (go_setState b s pc (Some k)) sh = Some (g', sh', new) →
  ginv sh (go_setState b s pc (Some k)) →
  ∃ pc', g' = go_setState b s pc' (Some k).
Proof.
  intros H Hg. gstep_inv H; simpl in *; spec_arith; simplify_eq; eauto.
Qed.

(** The local invariant of a goroutine survives what the others do. *)
Lemma ginv_rely g sh sh' : ginv sh g → rely g sh sh' → ginv sh' g.
Proof.
  intros Hg (Hh & Hp & Hc).
  destruct g; simpl in Hg |- *; spec_arith; repeat split; intros;
    repeat match goal with H : _ ∨ _ |- _ => destruct H end; subst;
    spec_arith; try (rewrite (Hc eq_refl)); try done; try lia;
    eauto using prefix_lookup_Some.
  etrans; [|exact Hh]. eauto.
Qed.

(** The pool after a step of goroutine [i]. *)
Lemma lookup_pool_step (pl : list (@goroutine Snapshot)) i g' new j gj :
  i < length pl →
  (<[i := g']> pl ++ new) !! j = Some gj →
  (j = i ∧ gj = g') ∨ (j ≠ i ∧ pl !! j = Some gj) ∨
  (length pl ≤ j ∧ gj ∈ new).
Proof.
  intros Hi Hj. apply lookup_app_Some in Hj as [Hj | [Hlen Hj]].
  - destruct (decide (j = i)) as [-> | Hne].
    + rewrite list_lookup_insert_eq in Hj by done. left. by simplify_eq.
    + rewrite list_lookup_insert_ne in Hj by done. right; left. done.
  - rewrite length_insert in Hlen. right; right. split; [done|].
    by eapply list_elem_of_lookup_2.
Qed.

Lemma lookup_pool_step_eq (pl : list (@goroutine Snapshot)) i g' new :
  i < length pl → (<[i := g']> pl ++ new) !! i = Some g'.
Proof.
  intros Hi. rewrite lookup_app_l by (by rewrite length_insert).
  by apply list_lookup_insert_eq.
Qed.

Lemma lookup_pool_step_ne (pl : list (@goroutine Snapshot)) i g' new j gj :
  j ≠ i → pl !! j = Some gj → (<[i := g']> pl ++ new) !! j = Some gj.
Proof.
  intros Hne Hj. apply lookup_app_l_Some.
  by rewrite list_lookup_insert_ne.
Qed.

Lemma gstep_waiter_unlock i c pl target ch sh g' sh' new :
  gstep sto i c pl (go_BlockWaiter target 3 ch) sh = Some (g', sh', new) →
  g' = go_BlockWaiter target 4 ch.
Proof. intros H. by gstep_inv H. Qed.

Section Run.
Variables (cfg : @Config Snapshot St) (i : nat) (c : bool).
Variables (g g' : @goroutine Snapshot) (sh' : @Shared Snapshot St).
Variable new : list (@goroutine Snapshot).
Hypothesis HInv : Inv cfg.
Hypothesis Hi : pool cfg !! i = Some g.
Hypothesis Hstep :
  gstep sto i c (pool cfg) g (shared cfg) = Some (g', sh', new).

Lemma Run_lt : i < length (pool cfg).
Proof. by eapply lookup_lt_Some. Qed.

(** While another goroutine holds the mutex, [i] stays outside. *)
Lemma Run_excluded j gj :
  j ≠ i → pool cfg !! j = Some gj → critical gj = true →
  critical g = false ∧ critical g' = false ∧
  cond_L sh' = cond_L (shared cfg).
Proof using HInv Hi Hstep.
  intros Hne Hj Hc. pose proof (inv_holder _ HInv _ _ Hj Hc) as HL.
  pose proof (gstep_lock _ _ _ _ _ _ _ _ Hstep) as Hlock.
  destruct (critical g) eqn:E.
  - pose proof (inv_holder _ HInv _ _ Hi E). congruence.
  - destruct (critical g') eqn:E'; [|done]. destruct Hlock. congruence.
Qed.

Lemma Run_reader_latest ret seen :
  g = go_State 1 ret seen →
  last (installed (shared cfg)) = Some (State (state (shared cfg))).
Proof using HInv Hi Hstep.
  intros ->. destruct (inv_latest _ HInv) as [(j&b&s&idx&Hj)|]; [|done].
  pose proof (inv_holder _ HInv _ _ Hj eq_refl).
  pose proof (inv_holder _ HInv _ _ Hi eq_refl). congruence.
Qed.

Lemma Run_holder j gj :
  (<[i := g']> (pool cfg) ++ new) !! j = Some gj → critical gj = true → cond_L sh' = Some j.
Proof using HInv Hi Hstep.
  intros Hj Hc. pose proof Run_lt as Hlt.
  pose proof (gstep_lock _ _ _ _ _ _ _ _ Hstep) as Hlock.
  apply (lookup_pool_step _ _ _ _ _ _ Hlt) in Hj
    as [[-> ->]|[[Hne Hj]|[_ Hin]]].
  - rewrite Hc in Hlock. destruct (critical g) eqn:E.
    + rewrite Hlock. by eapply inv_holder.
    + by destruct Hlock.
  - destruct (Run_excluded _ _ Hne Hj Hc) as (_&_&->).
    by eapply inv_holder.
  - eapply gstep_new in Hin as [target ->]; [|done]. done.
Qed.

Lemma Run_held j :
  cond_L sh' = Some j → ∃ gj, (<[i := g']> (pool cfg) ++ new) !! j = Some gj ∧ critical gj = true.
Proof using HInv Hi Hstep.
  intros HL. pose proof Run_lt as Hlt.
  pose proof (gstep_lock _ _ _ _ _ _ _ _ Hstep) as Hlock.
  destruct (critical g) eqn:E, (critical g') eqn:E'.
  - pose proof (inv_holder _ HInv _ _ Hi E).
    assert (j = i) as -> by congruence.
    exists g'. split; [by apply lookup_pool_step_eq|done].
  - congruence.
  - destruct Hlock. assert (j = i) as -> by congruence.
    exists g'. split; [by apply lookup_pool_step_eq|done].
  - rewrite Hlock in HL.
    destruct (inv_held _ HInv _ HL) as (gj & Hj & Hc).
    assert (j ≠ i) by (intros ->; congruence).
    exists gj. split; [by apply lookup_pool_step_ne|done].
Qed.

Lemma Run_local j gj : (<[i := g']> (pool cfg) ++ new) !! j = Some gj → ginv sh' gj.
Proof using HInv Hi Hstep.
  intros Hj. pose proof Run_lt as Hlt.
  pose proof (inv_local _ HInv _ _ Hi) as Hg.
  destruct (gstep_mono _ _ _ _ _ _ _ _ Hstep Hg) as [Hmono Hpre].
  apply (lookup_pool_step _ _ _ _ _ _ Hlt) in Hj
    as [[-> ->]|[[Hne Hj]|[_ Hin]]].
  - eapply gstep_local; eauto using inv_nonempty, Run_reader_latest.
  - eapply ginv_rely; [by eapply inv_local|].
    split; [done|]. split; [done|]. intros Hc.
    destruct (Run_excluded _ _ Hne Hj Hc) as (Hf&_&_).
    by destruct (gstep_frame _ _ _ _ _ _ _ _ Hstep Hf).
  - eapply gstep_new in Hin as [target ->]; [|done].
    simpl. repeat split; intros; try done; lia.
Qed.

Lemma Run_nonempty : 1 ≤ length (installed sh').
Proof using HInv Hi Hstep.
  pose proof (inv_local _ HInv _ _ Hi) as Hg.
  destruct (gstep_mono _ _ _ _ _ _ _ _ Hstep Hg) as [_ Hpre].
  apply prefix_length in Hpre. pose proof (inv_nonempty _ HInv). lia.
Qed.

Lemma Run_latest :
  (∃ j b s idx, (<[i := g']> (pool cfg) ++ new) !! j = Some (go_setState b s 2 idx)) ∨
  last (installed sh') = Some (State (state sh')).
Proof using HInv Hi Hstep.
  pose proof Run_lt as Hlt.
  destruct (gstep_latest _ _ _ _ _ _ _ _ Hstep)
    as [(HS & HI & Hn & _)|[(b&s&idx&->&->&HI)|(b&s&idx&->&->&HI&HS)]].
  - destruct (inv_latest _ HInv) as [(j&b&s&idx&Hj)|Hl].
    + left. exists j, b, s, idx. apply lookup_pool_step_ne; [|done].
      intros ->. rewrite Hi in Hj. simplify_eq. by eapply Hn.
    + right. by rewrite HS, HI.
  - left. exists i, b, s, idx. by apply lookup_pool_step_eq.
  - right. rewrite HI, HS, last_snoc.
    pose proof (inv_local _ HInv _ _ Hi) as (_&_&Hb&_).
    unfold State. simpl. by rewrite (Hb eq_refl).
Qed.

Lemma Run_parked j :
  j ∈ cond_notify sh' →
  ∃ target pc ch,
    (<[i := g']> (pool cfg) ++ new) !! j = Some (go_BlockWaiter target pc ch) ∧
    (pc = 3 ∨ pc = 4) ∧
    ((height (state sh') < target)%Z ∨
     ∃ k gk, (<[i := g']> (pool cfg) ++ new) !! k = Some gk ∧ broadcast_pending gk = true).
Proof using HInv Hi Hstep.
  intros Hj. pose proof Run_lt as Hlt.
  pose proof (inv_local _ HInv _ _ Hi) as Hg.
  destruct (gstep_notify _ _ _ _ _ _ _ _ Hstep Hg)
    as [(Hn & Hbp & Hnb & Hw4)|[(Hn & Hst & t & ch & -> & -> & Hlt')|Hn]].
  - rewrite Hn in Hj.
    destruct (inv_parked _ HInv _ Hj) as (target & pc & ch & Hpj & Hpc & Hc).
    assert (Hc' : (height (state sh') < target)%Z ∨
              ∃ k gk, (<[i := g']> (pool cfg) ++ new) !! k = Some gk ∧ broadcast_pending gk = true).
    { destruct Hc as [Hc|(k & gk & Hk & Hb)].
      - destruct Hbp as [Hbp|Hbp].
        + right. exists i, g'. split; [by apply lookup_pool_step_eq|done].
        + left. by rewrite Hbp.
      - right. exists k, gk. split; [|done].
        apply lookup_pool_step_ne; [|done]. intros ->. congruence. }
    destruct (decide (j = i)) as [->|Hne].
    + rewrite Hi in Hpj. simplify_eq. destruct Hpc as [->| ->].
      * apply gstep_waiter_unlock in Hstep as ->.
        exists target, 4, ch. split; [by apply lookup_pool_step_eq|].
        split; [by right|done].
      * exfalso. by eapply Hw4.
    + exists target, pc, ch. split; [by apply lookup_pool_step_ne|done].
  - rewrite Hn in Hj. destruct (decide (j = i)) as [->|Hne].
    + exists t, 3, ch. split; [by apply lookup_pool_step_eq|].
      split; [by left|]. left. by rewrite Hst.
    + apply elem_of_app in Hj as [Hj|Hj];
        [|apply list_elem_of_singleton in Hj; done].
      destruct (inv_parked _ HInv _ Hj)
        as (target & pc & ch' & Hpj & Hpc & Hc).
      exists target, pc, ch'. split; [by apply lookup_pool_step_ne|].
      split; [done|]. destruct Hc as [Hc|(k & gk & Hk & Hb)].
      * left. by rewrite Hst.
      * right. exists k, gk. split; [|done].
        apply lookup_pool_step_ne; [|done]. intros ->.
        rewrite Hi in Hk. by simplify_eq.
  - rewrite Hn in Hj. by apply not_elem_of_nil in Hj.
Qed.

Lemma Run_installed k :
  1 ≤ k < length (installed sh') →
  ∃ j b s pc, (<[i := g']> (pool cfg) ++ new) !! j = Some (go_setState b s pc (Some k)).
Proof using HInv Hi Hstep.
  intros Hk. pose proof Run_lt as Hlt.
  pose proof (inv_local _ HInv _ _ Hi) as Hg.
  assert (Hold : 1 ≤ k < length (installed (shared cfg)) →
    ∃ j b s pc, (<[i := g']> (pool cfg) ++ new) !! j = Some (go_setState b s pc (Some k))).
  { intros Hk'. destruct (inv_installed _ HInv _ Hk') as (j&b&s&pc&Hj).
    destruct (decide (j = i)) as [->|Hne].
    - rewrite Hi in Hj. simplify_eq.
      destruct (gstep_idx _ _ _ _ _ _ _ _ _ _ _ Hstep Hg) as [pc' ->].
      exists i, b, s, pc'. by apply lookup_pool_step_eq.
    - exists j, b, s, pc. by apply lookup_pool_step_ne. }
  destruct (gstep_latest _ _ _ _ _ _ _ _ Hstep)
    as [(_ & HI & _)|[(b&s&idx&_&_&HI)|(b&s&idx&_&->&HI&_)]].
  - apply Hold. by rewrite <- HI.
  - apply Hold. by rewrite <- HI.
  - rewrite HI, length_app in Hk. simpl in Hk.
    destruct (decide (k = length (installed (shared cfg)))) as [->|Hne].
    + exists i, b, s, 3. by apply lookup_pool_step_eq.
    + apply Hold. lia.
Qed.

Lemma Inv_Run : Inv (mkConfig sh' (<[i := g']> (pool cfg) ++ new)).
Proof using HInv Hi Hstep.
  split; simpl.
  - apply Run_holder.
  - apply Run_held.
  - apply Run_local.
  - apply Run_nonempty.
  - apply Run_latest.
  - apply Run_parked.
  - apply Run_installed.
Qed.

End Run.

Lemma entry_outside g sh :
  entry g = true →
  critical g = false ∧ ginv sh g ∧ broadcast_pending g = false ∧
  (∀ b s pc k, g ≠ go_setState b s pc (Some k)) ∧
  (∀ b s idx, g ≠ go_setState b s 2 idx).
Proof.
  intros He. destruct g; simpl in He; repeat case_match; simplify_eq;
    apply andb_prop in He || idtac; simpl;
    repeat split; intros; try lia; try done; try tauto.
Qed.

Lemma cancel_same e g g' sh :
  ctx_err e = true → cancel e g = Some g' → ginv sh g →
  critical g' = critical g ∧ ginv sh g' ∧
  broadcast_pending g = false ∧ broadcast_pending g' = false ∧
  (∀ b s pc idx, g ≠ go_setState b s pc idx) ∧
  (∀ b s pc idx, g' ≠ go_setState b s pc idx) ∧
  (∀ target pc ch, g ≠ go_BlockWaiter target pc ch).
Proof.
  intros He Hc Hg. destruct g; simpl in Hc; repeat case_match; simplify_eq;
    simpl in *; spec_arith; repeat split; intros; try done; try lia; eauto.
Qed.

Lemma Inv_Call cfg g :
  Inv cfg → entry g = true → Inv (mkConfig (shared cfg) (pool cfg ++ [g])).
Proof.
  intros HInv He.
  destruct (entry_outside g (shared cfg) He) as (Hc & Hg & Hb & Hk & H2).
  assert (Hold : ∀ j gj, pool cfg !! j = Some gj →
            (pool cfg ++ [g]) !! j = Some gj).
  { intros j gj Hj. by apply lookup_app_l_Some. }
  assert (Hcase : ∀ j gj, (pool cfg ++ [g]) !! j = Some gj →
            pool cfg !! j = Some gj ∨ gj = g).
  { intros j gj Hj. apply lookup_app_Some in Hj as [Hj|[_ Hj]]; [by left|].
    right. apply list_elem_of_lookup_2, list_elem_of_singleton in Hj. done. }
  split; simpl.
  - intros j gj Hj Hcr. destruct (Hcase _ _ Hj) as [Hj'| ->].
    + by eapply inv_holder. + congruence.
  - intros j HL. destruct (inv_held _ HInv _ HL) as (gj & Hj & Hcr). eauto.
  - intros j gj Hj. destruct (Hcase _ _ Hj) as [Hj'| ->].
    + by eapply inv_local. + done.
  - by apply inv_nonempty.
  - destruct (inv_latest _ HInv) as [(j&b&s&idx&Hj)|Hl]; [left|by right].
    eauto 10.
  - intros j Hj.
    destruct (inv_parked _ HInv _ Hj) as (t & pc & ch & Hpj & Hpc & Hcond).
    exists t, pc, ch. split; [eauto|]. split; [done|].
    destruct Hcond as [|(k & gk & Hk' & Hbk)]; [by left|right]. eauto.
  - intros k Hk'. destruct (inv_installed _ HInv _ Hk') as (j&b&s&pc&Hj).
    eauto 10.
Qed.

Lemma Inv_Cancel cfg i e g g' :
  Inv cfg → ctx_err e = true → pool cfg !! i = Some g →
  cancel e g = Some g' →
  Inv (mkConfig (shared cfg) (<[i := g']> (pool cfg))).
Proof.
  intros HInv He Hi Hc.
  pose proof (inv_local _ HInv _ _ Hi) as Hg.
  destruct (cancel_same _ _ _ _ He Hc Hg)
    as (Hcr & Hg' & Hb & Hb' & Hk & Hk' & Hw).
  assert (Hlt : i < length (pool cfg)) by (by eapply lookup_lt_Some).
  assert (Hold : ∀ j gj, pool cfg !! j = Some gj → gj ≠ g →
            <[i := g']> (pool cfg) !! j = Some gj).
  { intros j gj Hj Hne. rewrite list_lookup_insert_ne; [done|].
    intros ->. congruence. }
  assert (Hcase : ∀ j gj, <[i := g']> (pool cfg) !! j = Some gj →
            (j = i ∧ gj = g') ∨ (j ≠ i ∧ pool cfg !! j = Some gj)).
  { intros j gj Hj. destruct (decide (j = i)) as [->|Hne].
    - rewrite list_lookup_insert_eq in Hj by done. left. by simplify_eq.
    - rewrite list_lookup_insert_ne in Hj by done. by right. }
  split; simpl.
  - intros j gj Hj Hcrj. destruct (Hcase _ _ Hj) as [[-> ->]|[_ Hj']].
    + rewrite Hcr in Hcrj. by eapply inv_holder.
    + by eapply inv_holder.
  - intros j HL. destruct (inv_held _ HInv _ HL) as (gj & Hj & Hcrj).
    destruct (decide (j = i)) as [->|Hne].
    + exists g'. rewrite list_lookup_insert_eq by done. split; [done|].
      rewrite Hcr. congruence.
    + exists gj. by rewrite list_lookup_insert_ne.
  - intros j gj Hj. destruct (Hcase _ _ Hj) as [[-> ->]|[_ Hj']]; [done|].
    by eapply inv_local.
  - by apply inv_nonempty.
  - destruct (inv_latest _ HInv) as [(j&b&s&idx&Hj)|Hl]; [left|by right].
    exists j, b, s, idx. apply Hold; [done|]. intros <-. by eapply Hk.
  - intros j Hj.
    destruct (inv_parked _ HInv _ Hj) as (t & pc & ch & Hpj & Hpc & Hcond).
    exists t, pc, ch. split; [|split; [done|]].
    + apply Hold; [done|]. intros <-. by eapply Hw.
    + destruct Hcond as [|(k & gk & Hkk & Hbk)]; [by left|right].
      exists k, gk. split; [|done]. apply Hold; [done|]. congruence.
  - intros k Hkk. destruct (inv_installed _ HInv _ Hkk) as (j&b&s&pc&Hj).
    exists j, b, s, pc. apply Hold; [done|]. intros <-. by eapply Hk.
Qed.

Lemma Inv_Send cfg q :
  Inv cfg → Inv (mkConfig (with_pending q (shared cfg)) (pool cfg)).
Proof.
  intros [H1 H2 H3 H4 H5 H6 H7]. split; simpl; done.
Qed.

Lemma Inv_NewChain ctx st heights cfg err :
  ctx_typed ctx = true →
  NewChain Empty sto ctx st heights = (Some cfg, err) → Inv cfg.
Proof.
  intros Hctx H. unfold NewChain in H. repeat case_match; simplify_eq.
  all: match goal with |- Inv (mkConfig _ ?p) =>
    assert (Hp : ∀ j gj, p !! j = Some gj →
              (∃ hs, gj = go_heights hs 0 0%Z) ∨
              gj = go_snapshots ctx 0 None None)
  end.
  all: try (intros j gj Hj; apply list_elem_of_lookup_2 in Hj; simpl in Hj;
    repeat (apply elem_of_cons in Hj as [->|Hj]; eauto);
    by apply not_elem_of_nil in Hj).
  all: split; simpl.
  all: try (intros j gj Hj Hc; by destruct (Hp _ _ Hj) as [[hs ->]| ->]).
  all: try (intros j gj Hj; by destruct (Hp _ _ Hj) as [[hs ->]| ->]).
  all: try (intros j Hj; by apply not_elem_of_nil in Hj).
  all: try (intros k Hk; lia).
  all: try done; try lia; by right.
Qed.

Lemma Inv_step l cfg cfg' : Inv cfg → step sto l cfg = Some cfg' → Inv cfg'.
Proof.
  intros HInv H. destruct l as [i c|g|i e|ps]; simpl in H.
  - destruct (pool cfg !! i) as [g|] eqn:Hi; [|done]. simpl in H.
    destruct (gstep sto i c (pool cfg) g (shared cfg))
      as [[[g' sh'] new]|] eqn:Hs; [|done].
    simpl in H. simplify_eq. by eapply Inv_Run.
  - destruct (entry g) eqn:He; [|done]. simplify_eq. by apply Inv_Call.
  - destruct (ctx_err e) eqn:He; [|done].
    destruct (pool cfg !! i) as [g|] eqn:Hi; [|done]. simpl in H.
    destruct (cancel e g) as [g'|] eqn:Hc; [|done]. simpl in H.
    simplify_eq. by eapply Inv_Cancel.
  - case_match; [|done]. simplify_eq. by apply Inv_Send.
Qed.

Lemma reachable_Inv cfg : reachable Empty sto cfg → Inv cfg.
Proof.
  induction 1 as [ctx st heights cfg err Hctx H|l cfg cfg' _ IH H].
  - by eapply Inv_NewChain.
  - by eapply Inv_step.
Qed.

End invariants.

Section claims.
Context {Snapshot St : Type} (Empty : Snapshot) (sto : Store.t Snapshot St).
Implicit Types (sh : @Shared Snapshot St) (g : @goroutine Snapshot).
Implicit Types (cfg : @Config Snapshot St) (c : @ChainState Snapshot).

(** ** The height never goes down *)

Lemma setState_height b s c :
  height (setState b s c).1 = if advances b c then
    match b with Some blk => legacy.Height blk | None => height c end
  else height c.
Proof. unfold setState, advances. simpl. repeat case_match; simplify_eq; done. Qed.

Lemma setState_block b s c : block (setState b s c).1 = b.
Proof. unfold setState. by repeat case_match. Qed.

Lemma setState_snapshot b s c : snapshot (setState b s c).1 = s.
Proof. unfold setState. by repeat case_match. Qed.

Lemma setState_broadcast b s c : (setState b s c).2 = advances b c.
Proof. unfold setState, advances. simpl. by repeat case_match. Qed.

Lemma apply_update_height u c : height c ≤ height (apply_update u c).
Proof.
  destruct u as [b s|h]; simpl.
  - rewrite setState_height. unfold advances. repeat case_match; lia.
  - unfold setHeight. case_match; simpl; lia.
Qed.

Lemma apply_updates_height us c : height c ≤ height (apply_updates us c).
Proof.
  revert c. induction us as [|u us IH]; intros c; simpl; [done|].
  etrans; [apply (apply_update_height u)|apply IH].
Qed.

Lemma step_height l cfg cfg' :
  Inv cfg → step sto l cfg = Some cfg' →
  height (state (shared cfg)) ≤ height (state (shared cfg')).
Proof.
  intros HInv H. destruct l as [i ch|g|i e|ps]; simpl in H.
  - destruct (pool cfg !! i) as [g|] eqn:Hi; [|done]. simpl in H.
    destruct (gstep sto i ch (pool cfg) g (shared cfg))
      as [[[g' sh'] new]|] eqn:Hs; [|done].
    simpl in H. simplify_eq. simpl.
    by destruct (gstep_mono _ _ _ _ _ _ _ _ _ Hs (inv_local _ HInv _ _ Hi)).
  - case_match; by simplify_eq.
  - repeat (case_match; simplify_option_eq); done.
  - case_match; by simplify_eq.
Qed.

(** C1: after [setState(b, s)] the height is at least what it was; it is
    strictly greater exactly when [b] is non-nil and [b.Height] exceeds the
    height before the call, and a call with a nil block leaves it as it
    was. Hence the height read by [Height()] never decreases: not along a
    sequence of state updates, and not in any step of the goroutines. *)
Theorem setState_height_monotone :
  (∀ b s c,
     height c ≤ height (setState b s c).1 ∧
     (height c < height (setState b s c).1 ↔
      ∃ blk, b = Some blk ∧ legacy.Height blk > height c) ∧
     ((setState b s c).2 = true ↔ height c < height (setState b s c).1)) ∧
  (∀ s c, height (setState None s c).1 = height c) ∧
  (∀ us1 us2 c,
     Height (apply_updates us1 c) ≤ Height (apply_updates (us1 ++ us2) c)) ∧
  (∀ l cfg cfg',
     reachable Empty sto cfg → step sto l cfg = Some cfg' →
     Height (state (shared cfg)) ≤ Height (state (shared cfg'))).
Proof.
  split; [|split; [|split]].
  - intros b s c. rewrite setState_height, setState_broadcast.
    unfold advances. destruct b as [blk|].
    + destruct (Z.gtb_spec (legacy.Height blk) (height c)).
      * repeat split; try lia; eauto with lia.
      * repeat split; try lia; try done. intros (blk' & ? & ?).
        simplify_eq. lia.
    + repeat split; try lia; try done. by intros (? & ? & _).
  - intros s c. by rewrite setState_height.
  - intros us1 us2 c. unfold Height, apply_updates.
    rewrite fold_left_app. apply apply_updates_height.
  - intros l cfg cfg' Hr H. unfold Height.
    eapply step_height; [|done]. by eapply reachable_Inv.
Qed.

(** ** The block and the height *)

Lemma apply_update_below u c :
  block_below_height c → block_below_height (apply_update u c).
Proof.
  intros Hc blk. destruct u as [b s|h]; simpl.
  - rewrite setState_block, setState_height. intros ->. unfold advances.
    case_match; lia.
  - unfold setHeight. case_match; simpl; [|by apply Hc].
    intros Hb. specialize (Hc _ Hb). lia.
Qed.

(** C2, as amended: after [NewChain] on a store whose height is below 1
    the block is nil. After [setState(b, s)] the block is [b], nil or not,
    whatever the height is; a non-nil [b] is not above the height, and it
    is at the height exactly when [b.Height] is at least the height before
    the call. So every sequence of state updates keeps the block at or
    below the height. *)
Theorem block_not_above_height :
  (∀ ctx st heights,
     ∃ cfg, NewChain Empty sto ctx st heights = (Some cfg, None) ∧
       (height (state (shared cfg)) < 1 → block (state (shared cfg)) = None)) ∧
  (∀ b s c,
     block (setState b s c).1 = b ∧
     ∀ blk, b = Some blk →
       legacy.Height blk ≤ height (setState b s c).1 ∧
       (legacy.Height blk = height (setState b s c).1 ↔
        height c ≤ legacy.Height blk)) ∧
  (∀ s c,
     block (setState None s c).1 = None ∧
     height (setState None s c).1 = height c) ∧
  (∀ us c, block_below_height c → block_below_height (apply_updates us c)).
Proof.
  split; [|split; [|split]].
  - intros ctx st heights. unfold NewChain.
    repeat case_match; simplify_eq; eexists; split; try done; simpl; lia.
  - intros b s c. split; [apply setState_block|]. intros blk ->.
    rewrite setState_height. unfold advances.
    destruct (Z.gtb_spec (legacy.Height blk) (height c)); lia.
  - intros s c. by rewrite setState_block, setState_height.
  - intros us. induction us as [|u us IH]; intros c Hc; simpl; [done|].
    apply IH. by apply apply_update_below.
Qed.

(** C3, as amended: [NewChain] never fails. It returns a chain and a nil
    error whatever the store answers; with a stored height of 1 or more the
    block is the pointer [GetBlock] returned, and the error [GetBlock]
    returned with it (NotFound included) is dropped. *)
Theorem NewChain_drops_GetBlock_error ctx st heights :
  ∃ cfg, NewChain Empty sto ctx st heights = (Some cfg, None) ∧
    let '(_, st1) := Store.Height sto st in
    let '(h, st2) := Store.Height sto st1 in
    let '(b, _, _) := Store.GetBlock sto h st2 in
    height (state (shared cfg)) = h ∧
    (1 ≤ h → block (state (shared cfg)) = b).
Proof.
  unfold NewChain. repeat case_match; simplify_eq; eexists; split; try done;
    simpl; split; try done; lia.
Qed.

(** C7: [NewChain] sets the height to the store's height; below 1 the
    snapshot is the empty snapshot and the block stays nil; otherwise the
    block is what [GetBlock] returns for that height and the snapshot is
    what [LatestSnapshot] returns. *)
Theorem NewChain_seeds_state ctx st heights :
  let '(_, st1) := Store.Height sto st in
  let '(h, st2) := Store.Height sto st1 in
  let '(b, _, st3) := Store.GetBlock sto h st2 in
  let '(s, _, _, _) := Store.LatestSnapshot sto st3 in
  ∃ cfg, (NewChain Empty sto ctx st heights).1 = Some cfg ∧
    Height (state (shared cfg)) = h ∧
    (h < 1 →
     block (state (shared cfg)) = None ∧
     snapshot (state (shared cfg)) = Some Empty) ∧
    (1 ≤ h →
     block (state (shared cfg)) = b ∧ snapshot (state (shared cfg)) = s).
Proof.
  unfold NewChain. repeat case_match; simplify_eq; eexists; split; try done;
    simpl; repeat split; try done; lia.
Qed.

(** ** A goroutine running alone *)

Lemma step_Run_inv i ch cfg cfg' g :
  pool cfg !! i = Some g → step sto (Run i ch) cfg = Some cfg' →
  ∃ g' sh' new,
    gstep sto i ch (pool cfg) g (shared cfg) = Some (g', sh', new) ∧
    cfg' = mkConfig sh' (<[i := g']> (pool cfg) ++ new).
Proof.
  intros Hi H. simpl in H. rewrite Hi in H. simpl in H.
  destruct (gstep sto i ch (pool cfg) g (shared cfg))
    as [[[g' sh'] new]|] eqn:Hs; [|done].
  simpl in H. simplify_eq. eauto.
Qed.

Lemma run_Run i ch ls cfg g :
  pool cfg !! i = Some g →
  run sto (Run i ch :: ls) cfg =
  match gstep sto i ch (pool cfg) g (shared cfg) with
  | Some (g', sh', new) =>
      run sto ls (mkConfig sh' (<[i := g']> (pool cfg) ++ new))
  | None => None
  end.
Proof. intros Hi. simpl. rewrite Hi. simpl. by repeat case_match. Qed.

Lemma run_app ls1 ls2 cfg :
  run sto (ls1 ++ ls2) cfg = run sto ls1 cfg ≫= run sto ls2.
Proof.
  revert cfg. induction ls1 as [|l ls1 IH]; intros cfg; simpl; [done|].
  destruct (step sto l cfg); simpl; [apply IH|done].
Qed.

Lemma run_reachable ls cfg cfg' :
  reachable Empty sto cfg → run sto ls cfg = Some cfg' →
  reachable Empty sto cfg'.
Proof.
  revert cfg. induction ls as [|l ls IH]; intros cfg Hr H; simpl in H.
  - by simplify_eq.
  - destruct (step sto l cfg) as [cfg1|] eqn:Hs; [|done]. simpl in H.
    eapply IH; [|done]. by eapply reachable_step.
Qed.

Local Arguments run : simpl never.

Lemma insert_pool_twice (pl : list (@goroutine Snapshot)) i g1 g2 :
  <[i := g2]> (<[i := g1]> pl ++ []) ++ [] = <[i := g2]> pl ++ [].
Proof. by rewrite !app_nil_r, list_insert_insert_eq. Qed.

Lemma lookup_pool_solo (pl : list (@goroutine Snapshot)) i g g' :
  pl !! i = Some g → (<[i := g']> pl ++ []) !! i = Some g'.
Proof. intros Hi. apply lookup_pool_step_eq. by eapply lookup_lt_Some. Qed.

Lemma run_solo i ch ls sh (pl : list (@goroutine Snapshot)) g0 g g' sh' :
  pl !! i = Some g0 →
  gstep sto i ch (<[i := g]> pl ++ []) g sh = Some (g', sh', []) →
  run sto (Run i ch :: ls) (mkConfig sh (<[i := g]> pl ++ [])) =
  run sto ls (mkConfig sh' (<[i := g']> pl ++ [])).
Proof.
  intros Hi Hs. erewrite run_Run; [|by eapply lookup_pool_solo].
  simpl. rewrite Hs. by rewrite insert_pool_twice.
Qed.

Lemma run_solo_start sh (pl : list (@goroutine Snapshot)) i g0 :
  pl !! i = Some g0 → mkConfig sh pl = mkConfig sh (<[i := g0]> pl ++ []).
Proof. intros Hi. by rewrite app_nil_r, list_insert_id. Qed.

(** One statement of a goroutine running alone, the shared memory given
    field by field. *)
Ltac solo Hi :=
  erewrite run_solo; [|exact Hi|simpl; try reflexivity].

(** The two layers agree: a [setState] call that runs alone from a free
    mutex leaves the guarded fields as the method body says, and empties
    the notify list exactly when the body calls Broadcast. *)
Lemma setState_runs_alone cfg i b s :
  cond_L (shared cfg) = None →
  pool cfg !! i = Some (go_setState b s 0 None) →
  ∃ n cfg',
    run sto (replicate n (Run i false)) cfg = Some cfg' ∧
    state (shared cfg') = (setState b s (state (shared cfg))).1 ∧
    cond_notify (shared cfg') =
      (if (setState b s (state (shared cfg))).2 then []
       else cond_notify (shared cfg)) ∧
    cond_L (shared cfg') = None ∧
    installed (shared cfg') = installed (shared cfg) ++ [(b, s)].
Proof.
  destruct cfg as [[st L n q σ lg inst] pl]. simpl. intros -> Hi.
  unfold setState. simpl. destruct b as [blk|].
  - destruct (legacy.Height blk >? height st) eqn:Hgt.
    + exists 7%nat. eexists. split.
      { rewrite (run_solo_start _ _ _ _ Hi). simpl.
        solo Hi. solo Hi. solo Hi.
        erewrite run_solo; [|exact Hi|simpl; rewrite Hgt; reflexivity].
        solo Hi. solo Hi. solo Hi. reflexivity. }
      done.
    + exists 5%nat. eexists. split.
      { rewrite (run_solo_start _ _ _ _ Hi). simpl.
        solo Hi. solo Hi. solo Hi.
        erewrite run_solo; [|exact Hi|simpl; rewrite Hgt; reflexivity].
        solo Hi. reflexivity. }
      done.
  - exists 5%nat. eexists. split.
    { rewrite (run_solo_start _ _ _ _ Hi). simpl.
      solo Hi. solo Hi. solo Hi. solo Hi. solo Hi. reflexivity. }
    done.
Qed.

(** The same for one round of the goroutine that reads [heights]: it does
    what [setHeight] says. *)
Lemma setHeight_runs_alone cfg i h hs h0 :
  cond_L (shared cfg) = None →
  pool cfg !! i = Some (go_heights (h :: hs) 0 h0) →
  ∃ n cfg',
    run sto (replicate n (Run i false)) cfg = Some cfg' ∧
    state (shared cfg') = (setHeight h (state (shared cfg))).1 ∧
    cond_notify (shared cfg') =
      (if (setHeight h (state (shared cfg))).2 then []
       else cond_notify (shared cfg)) ∧
    cond_L (shared cfg') = None ∧
    pool cfg' !! i = Some (go_heights hs 0 h).
Proof.
  destruct cfg as [[st L n q σ lg inst] pl]. simpl. intros -> Hi.
  unfold setHeight. destruct (h >? height st) eqn:Hgt.
  - exists 6%nat. eexists. split.
    { rewrite (run_solo_start _ _ _ _ Hi). simpl.
      solo Hi. solo Hi.
      erewrite run_solo; [|exact Hi|simpl; rewrite Hgt; reflexivity].
      solo Hi. solo Hi. solo Hi. reflexivity. }
    simpl. repeat split. by eapply lookup_pool_solo.
  - exists 4%nat. eexists. split.
    { rewrite (run_solo_start _ _ _ _ Hi). simpl.
      solo Hi. solo Hi.
      erewrite run_solo; [|exact Hi|simpl; rewrite Hgt; reflexivity].
      solo Hi. reflexivity. }
    simpl. destruct st. repeat split. by eapply lookup_pool_solo.
Qed.

(** C10: when [b] is non-nil and [b.Height] is at most the current
    height, [setState(b, s)] still replaces the block and the snapshot,
    leaves the height as it was and does not call Broadcast: a call that
    runs from a free mutex ends with the notify list as it found it. *)
Theorem setState_overwrites_without_advancing blk s c :
  legacy.Height blk ≤ height c →
  setState (Some blk) s c = (mkChainState (height c) (Some blk) s, false) ∧
  ∀ cfg i,
    state (shared cfg) = c →
    cond_L (shared cfg) = None →
    pool cfg !! i = Some (go_setState (Some blk) s 0 None) →
    ∃ cfg',
      run sto (replicate 5 (Run i false)) cfg = Some cfg' ∧
      state (shared cfg') = mkChainState (height c) (Some blk) s ∧
      cond_notify (shared cfg') = cond_notify (shared cfg) ∧
      cond_L (shared cfg') = None ∧
      pool cfg' !! i =
        Some (go_setState (Some blk) s 7
                (Some (length (installed (shared cfg))))).
Proof.
  intros Hle.
  assert (Hgt : (legacy.Height blk >? height c) = false).
  { destruct (Z.gtb_spec (legacy.Height blk) (height c)); [lia|done]. }
  split.
  { unfold setState. simpl. by rewrite Hgt. }
  intros [[st L n q σ lg inst] pl] i Hst HL Hi. simpl in Hst, HL, Hi.
  subst. eexists. split.
  { rewrite (run_solo_start _ _ _ _ Hi). simpl.
    solo Hi. solo Hi. solo Hi.
    erewrite run_solo; [|exact Hi|simpl; rewrite Hgt; reflexivity].
    solo Hi. reflexivity. }
  simpl. repeat split. by eapply lookup_pool_solo.
Qed.

(** ** Reading the timestamp *)

Lemma gstep_TimestampMS_state i ch pl pc ret sh g' sh' new :
  gstep sto i ch pl (go_TimestampMS pc ret) sh = Some (g', sh', new) →
  state sh' = state sh ∧ installed sh' = installed sh ∧ new = [].
Proof. intros H. simpl in H. gstep_inv H; by repeat split. Qed.

(** C8: [TimestampMS()] returns 0 while the block is nil and the block's
    [TimestampMS] otherwise, and no statement of it changes the guarded
    fields: a call that runs from a free mutex returns that value and
    leaves the shared memory as it found it. *)
Theorem TimestampMS_reads_block c :
  (block c = None → TimestampMS c = 0) ∧
  (∀ b, block c = Some b → TimestampMS c = legacy.TimestampMS b) ∧
  (∀ cfg i pc ret ch cfg',
     pool cfg !! i = Some (go_TimestampMS pc ret) →
     step sto (Run i ch) cfg = Some cfg' →
     state (shared cfg') = state (shared cfg)) ∧
  (∀ cfg i,
     state (shared cfg) = c →
     cond_L (shared cfg) = None →
     pool cfg !! i = Some (go_TimestampMS 0 None) →
     ∃ n,
       run sto (replicate n (Run i false)) cfg =
       Some (mkConfig (shared cfg)
               (<[i := go_TimestampMS 4 (Some (TimestampMS c))]> (pool cfg)))).
Proof.
  split; [|split; [|split]].
  - unfold TimestampMS. by intros ->.
  - unfold TimestampMS. by intros b ->.
  - intros cfg i pc ret ch cfg' Hi H.
    destruct (step_Run_inv _ _ _ _ _ Hi H) as (g' & sh' & new & Hs & ->).
    by destruct (gstep_TimestampMS_state _ _ _ _ _ _ _ _ _ Hs).
  - intros [[st L n q σ lg inst] pl] i Hst HL Hi. simpl in Hst, HL, Hi.
    subst. unfold TimestampMS. simpl.
    destruct (block c) as [b|] eqn:Hb.
    + exists 4%nat. rewrite (run_solo_start _ _ _ _ Hi). simpl.
      solo Hi. erewrite run_solo; [|exact Hi|simpl; rewrite Hb; reflexivity].
      erewrite run_solo; [|exact Hi|simpl; rewrite Hb; reflexivity].
      solo Hi. by rewrite app_nil_r.
    + exists 3%nat. rewrite (run_solo_start _ _ _ _ Hi). simpl.
      solo Hi. erewrite run_solo; [|exact Hi|simpl; rewrite Hb; reflexivity].
      solo Hi. by rewrite app_nil_r.
Qed.

(** ** The goroutine that saves snapshots *)

Lemma gstep_snapshots_frame i ch pl ctx pc ps err sh g' sh' new :
  gstep sto i ch pl (go_snapshots ctx pc ps err) sh = Some (g', sh', new) →
  state sh' = state sh ∧ cond_L sh' = cond_L sh ∧
  cond_notify sh' = cond_notify sh ∧ installed sh' = installed sh ∧
  new = [].
Proof. intros H. simpl in H. gstep_inv H; by repeat split. Qed.

(** C9: when [SaveSnapshot] fails for the request the goroutine has taken
    from [c.pendingSnapshots], the goroutine calls it that once, logs the
    error and is back at its select, where it takes the next request; the
    failed one is gone from the channel.
    The guarded fields, the mutex and the notify list are as they were, so
    [setState] and [State] give what they would have given; and no
    statement of this goroutine ever touches them. *)
Theorem SaveSnapshot_failure_is_logged cfg i ctx ps0 err0 p rest e st' :
  pool cfg !! i = Some (go_snapshots ctx 0 ps0 err0) →
  pendingSnapshots (shared cfg) = p :: rest →
  Store.SaveSnapshot sto (ps_height p) (ps_snapshot p) (store (shared cfg)) =
    (Some e, st') →
  (∃ cfg',
     run sto (replicate 4 (Run i false)) cfg = Some cfg' ∧
     pool cfg' = <[i := go_snapshots ctx 0 (Some p) (Some e)]> (pool cfg) ∧
     shared cfg' =
       with_logs (logs (shared cfg) ++ [LogError e "at" "saving snapshot"])
         (with_store st' (with_pending rest (shared cfg))) ∧
     state (shared cfg') = state (shared cfg) ∧
     (∀ b s,
        setState b s (state (shared cfg')) =
        setState b s (state (shared cfg))) ∧
     State (state (shared cfg')) = State (state (shared cfg)) ∧
     (∀ p' rest', rest = p' :: rest' →
        ∃ cfg'',
          run sto [Run i false] cfg' = Some cfg'' ∧
          pool cfg'' !! i = Some (go_snapshots ctx 1 (Some p') (Some e)) ∧
          pendingSnapshots (shared cfg'') = rest')) ∧
  (∀ cfg1 j ctx1 pc ps err ch cfg2,
     pool cfg1 !! j = Some (go_snapshots ctx1 pc ps err) →
     step sto (Run j ch) cfg1 = Some cfg2 →
     state (shared cfg2) = state (shared cfg1) ∧
     cond_L (shared cfg2) = cond_L (shared cfg1) ∧
     cond_notify (shared cfg2) = cond_notify (shared cfg1)).
Proof.
  intros Hi Hq Hsave. split.
  - destruct cfg as [[st L n q σ lg inst] pl]. simpl in Hi, Hq, Hsave.
    subst. eexists. split.
    { rewrite (run_solo_start _ _ _ _ Hi). simpl.
      solo Hi.
      erewrite run_solo; [|exact Hi|simpl; rewrite Hsave; reflexivity].
      solo Hi. solo Hi. reflexivity. }
    simpl. split; [by rewrite app_nil_r|]. do 4 (split; [done|]).
    intros p' rest' ->. eexists. split.
    { solo Hi. reflexivity. }
    simpl. split; [by eapply lookup_pool_solo|done].
  - intros cfg1 j ctx1 pc ps err ch cfg2 Hj H.
    destruct (step_Run_inv _ _ _ _ _ Hj H) as (g' & sh' & new & Hs & ->).
    destruct (gstep_snapshots_frame _ _ _ _ _ _ _ _ _ _ _ Hs)
      as (?&?&?&_). done.
Qed.

(** ** The test of BlockSoonWaiter *)

(** While [c.Height()+slop] does not overflow, the test is the comparison
    with the height plus 3. *)
Lemma tooDistant_in_range target cur :
  0 ≤ cur → cur + 3 < 2 ^ 64 →
  tooDistant target cur = true ↔ target > cur + 3.
Proof.
  intros H0 H3. unfold tooDistant, wrap64, slop.
  rewrite Z.mod_small by lia.
  destruct (Z.gtb_spec target (cur + 3)); split; (done || lia).
Qed.

Lemma tooDistant_at_10 : tooDistant 14 10 = true ∧ tooDistant 13 10 = false.
Proof. done. Qed.

(** The error is on the channel exactly when the test has succeeded. *)
Lemma BlockSoonWaiter_error cfg i target ctx pc cur w ch :
  reachable Empty sto cfg →
  pool cfg !! i = Some (go_BlockSoonWaiter target ctx pc cur w ch) →
  Some ErrTheDistantFuture ∈ ch ↔ pc = 5%nat ∧ tooDistant target cur = true.
Proof.
  intros Hr Hi. apply reachable_Inv in Hr.
  pose proof (inv_local _ Hr _ _ Hi) as (_ & Hch & _ & _ & _ & H5).
  split.
  - intros Hin. destruct (decide (pc = 5%nat)) as [->|Hne].
    + split; [done|].
      destruct (H5 eq_refl) as [[? _]|[_ [->|(e & He & ->)]]]; [done| |];
        apply list_elem_of_singleton in Hin; by simplify_eq.
    + rewrite (Hch Hne) in Hin. by apply not_elem_of_nil in Hin.
  - intros [-> Ht].
    destruct (H5 eq_refl) as [[_ ->]|[? _]]; [|congruence].
    by apply list_elem_of_singleton.
Qed.

(** When the test succeeds the goroutine sends the error and returns; it
    starts no goroutine. *)
Lemma BlockSoonWaiter_fast_fail cfg i target ctx cur w :
  pool cfg !! i = Some (go_BlockSoonWaiter target ctx 3 cur w []) →
  tooDistant target cur = true →
  run sto [Run i true; Run i true] cfg =
  Some (mkConfig (shared cfg)
          (<[i := go_BlockSoonWaiter target ctx 5 cur w
                    [Some ErrTheDistantFuture]]> (pool cfg))).
Proof.
  intros Hi Ht. destruct cfg as [sh pl]. simpl in Hi |- *.
  rewrite (run_solo_start _ _ _ _ Hi). simpl.
  erewrite run_solo; [|exact Hi|simpl; rewrite Ht; reflexivity].
  solo Hi. rewrite app_nil_r. reflexivity.
Qed.

(** ** What State returns *)

Local Open Scope nat_scope.

(** A [setState] that has its index and is outside the mutex has
    returned. *)
Lemma setState_returned cfg i b s pc k :
  Inv cfg → pool cfg !! i = Some (go_setState b s pc (Some k)) →
  cond_L (shared cfg) ≠ Some i → pc = 7.
Proof.
  intros HInv Hi HL.
  pose proof (inv_local _ HInv _ _ Hi) as (Hidx & _ & _ & _ & _ & H7).
  destruct (decide (pc ≤ 2)) as [Hle|Hgt]; [by specialize (Hidx Hle)|].
  destruct (decide (pc ≤ 6)) as [Hle|Hgt']; [|lia].
  exfalso. apply HL. eapply inv_holder; [done..|]. unfold critical.
  apply andb_true_intro. split; apply Nat.leb_le; lia.
Qed.

(** A [setState] call that runs alone from a free mutex runs to its
    return, and leaves its pair installed. *)
Lemma setState_runs_to_return cfg i b s :
  cond_L (shared cfg) = None →
  pool cfg !! i = Some (go_setState b s 0 None) →
  ∃ n cfg',
    n ≤ 7 ∧
    run sto (replicate n (Run i false)) cfg = Some cfg' ∧
    pool cfg' =
      <[i := go_setState b s 7 (Some (length (installed (shared cfg))))]>
        (pool cfg) ∧
    State (state (shared cfg')) = (b, s) ∧
    cond_L (shared cfg') = None ∧
    installed (shared cfg') = installed (shared cfg) ++ [(b, s)].
Proof.
  destruct cfg as [[st L n q σ lg inst] pl]. simpl. intros -> Hi.
  destruct b as [blk|].
  - destruct (legacy.Height blk >? height st)%Z eqn:Hgt.
    + exists 7. eexists. split; [lia|]. split.
      { rewrite (run_solo_start _ _ _ _ Hi). simpl.
        solo Hi. solo Hi. solo Hi.
        erewrite run_solo; [|exact Hi|simpl; rewrite Hgt; reflexivity].
        solo Hi. solo Hi. solo Hi. reflexivity. }
      simpl. by rewrite app_nil_r.
    + exists 5. eexists. split; [lia|]. split.
      { rewrite (run_solo_start _ _ _ _ Hi). simpl.
        solo Hi. solo Hi. solo Hi.
        erewrite run_solo; [|exact Hi|simpl; rewrite Hgt; reflexivity].
        solo Hi. reflexivity. }
      simpl. by rewrite app_nil_r.
  - exists 5. eexists. split; [lia|]. split.
    { rewrite (run_solo_start _ _ _ _ Hi). simpl.
      solo Hi. solo Hi. solo Hi. solo Hi. solo Hi. reflexivity. }
    simpl. by rewrite app_nil_r.
Qed.

(** A [State()] call that runs alone from a free mutex returns the two
    fields as they are and leaves the shared memory as it found it. *)
Lemma State_runs_alone cfg j :
  cond_L (shared cfg) = None →
  pool cfg !! j = Some (go_State 0 None 0) →
  run sto (replicate 3 (Run j false)) cfg =
  Some (mkConfig (shared cfg)
          (<[j := go_State 3 (Some (State (state (shared cfg))))
                    (length (installed (shared cfg)) - 1)]> (pool cfg))).
Proof.
  destruct cfg as [[st L n q σ lg inst] pl]. simpl. intros -> Hj.
  rewrite (run_solo_start _ _ _ _ Hj). simpl.
  solo Hj. solo Hj. solo Hj. simpl. by rewrite app_nil_r.
Qed.

(** C5, as amended. In every configuration the chain can be in:
    - [setState] writes the block, the snapshot and the height in one
      critical section: between its [Lock] and its [Unlock] it holds the
      mutex, and no other goroutine, in particular no [State()] call, is
      between its own [Lock] and [Unlock];
    - a [setState(b, s)] call that runs from a free mutex returns, and a
      [State()] call that runs next returns the pair (b, s);
    - once [setState(b, s)] has returned, a [State()] that reads returns
      one whole pair of the history [installed]: the pair (b, s) itself,
      or the pair of another [setState] call that wrote after it and has
      returned too; the block and the snapshot it returns are never from
      two calls. The height is at least the height of the block returned;
      it need not be equal to it. *)
Theorem State_returns_a_whole_pair cfg :
  reachable Empty sto cfg →
  (∀ i b s pc idx,
     pool cfg !! i = Some (go_setState b s pc idx) → 1 ≤ pc ≤ 6 →
     cond_L (shared cfg) = Some i ∧
     ∀ j g, pool cfg !! j = Some g → j ≠ i → critical g = false) ∧
  (∀ i j b s,
     cond_L (shared cfg) = None →
     pool cfg !! i = Some (go_setState b s 0 None) →
     pool cfg !! j = Some (go_State 0 None 0) →
     ∃ n cfg' k,
       n ≤ 7 ∧
       run sto (replicate n (Run i false) ++ replicate 3 (Run j false)) cfg =
         Some cfg' ∧
       pool cfg' !! i = Some (go_setState b s 7 (Some k)) ∧
       pool cfg' !! j = Some (go_State 3 (Some (b, s)) k)) ∧
  (∀ i b s idx j ret seen ch cfg',
     pool cfg !! i = Some (go_setState b s 7 idx) →
     pool cfg !! j = Some (go_State 1 ret seen) →
     step sto (Run j ch) cfg = Some cfg' →
     ∃ k r p,
       idx = Some k ∧
       pool cfg' !! j = Some (go_State 2 (Some p) r) ∧
       p = State (state (shared cfg)) ∧
       installed (shared cfg) !! k = Some (b, s) ∧
       installed (shared cfg') !! r = Some p ∧
       k ≤ r ∧
       (r = k → p = (b, s)) ∧
       (k < r →
        ∃ i' b' s',
          i' ≠ i ∧ pool cfg !! i' = Some (go_setState b' s' 7 (Some r)) ∧
          p = (b', s')) ∧
       (∀ blk, p.1 = Some blk →
          (legacy.Height blk ≤ Height (state (shared cfg')))%Z)).
Proof.
  intros Hr. pose proof (reachable_Inv _ _ _ Hr) as HInv.
  split; [|split].
  - intros i b s pc idx Hi Hpc.
    assert (HL : cond_L (shared cfg) = Some i).
    { eapply inv_holder; [done..|]. unfold critical.
      apply andb_true_intro. split; apply Nat.leb_le; lia. }
    split; [done|]. intros j g Hj Hne.
    destruct (critical g) eqn:Hc; [|done].
    pose proof (inv_holder _ HInv _ _ Hj Hc). congruence.
  - intros i j b s HL Hi Hj.
    assert (i ≠ j) as Hne by (intros ->; rewrite Hi in Hj; done).
    destruct (setState_runs_to_return cfg i b s HL Hi)
      as (n & cfg1 & Hn & Hrun1 & Hpool1 & Hst1 & HL1 & Hinst1).
    assert (Hj1 : pool cfg1 !! j = Some (go_State 0 None 0)).
    { rewrite Hpool1. by rewrite list_lookup_insert_ne. }
    pose proof (State_runs_alone cfg1 j HL1 Hj1) as Hrun2.
    eexists n, _, (length (installed (shared cfg))).
    split; [done|]. split; [rewrite run_app, Hrun1; exact Hrun2|].
    simpl. split.
    + rewrite list_lookup_insert_ne by done. rewrite Hpool1.
      apply list_lookup_insert_eq. by eapply lookup_lt_Some.
    + rewrite Hst1, Hinst1, length_app. simpl.
      replace (length (installed (shared cfg)) + 1 - 1)
        with (length (installed (shared cfg))) by lia.
      apply list_lookup_insert_eq. by eapply lookup_lt_Some.
  - intros i b s idx j ret seen ch cfg' Hi Hj H.
    destruct (step_Run_inv _ _ _ _ _ Hj H) as (g' & sh' & new & Hs & ->).
    simpl in Hs. simplify_eq. simpl.
    pose proof (inv_holder _ HInv _ _ Hj eq_refl) as HL.
    pose proof (inv_local _ HInv _ _ Hi) as (_ & Hk & _ & _ & Hh & _).
    destruct Hk as (k & -> & Hk1 & Hik); [lia|].
    assert (Hlast : last (installed (shared cfg)) =
                    Some (State (state (shared cfg)))).
    { destruct (inv_latest _ HInv) as [(j'&b'&s'&idx'&Hj')|]; [|done].
      pose proof (inv_holder _ HInv _ _ Hj' eq_refl). congruence. }
    rewrite last_lookup in Hlast.
    pose proof (lookup_lt_Some _ _ _ Hik) as Hlt.
    exists k, (length (installed (shared cfg)) - 1),
      (State (state (shared cfg))).
    rewrite Nat.sub_1_r.
    assert (Hlater : k < pred (length (installed (shared cfg))) →
      ∃ i' b' s', i' ≠ i ∧
        pool cfg !! i' =
          Some (go_setState b' s' 7
                  (Some (pred (length (installed (shared cfg)))))) ∧
        State (state (shared cfg)) = (b', s') ∧
        ∀ blk, b' = Some blk →
          (legacy.Height blk ≤ height (state (shared cfg)))%Z).
    { intros Hkr.
      destruct (inv_installed _ HInv (pred (length (installed (shared cfg)))))
        as (i' & b' & s' & pc' & Hi'); [lia|].
      assert (pc' = 7) as ->.
      { eapply setState_returned; [done..|]. rewrite HL. intros ?.
        simplify_eq. }
      pose proof (inv_local _ HInv _ _ Hi') as (_ & Hk' & _ & _ & Hh' & _).
      destruct Hk' as (k' & Heq & _ & Hik'); [lia|]. injection Heq as <-.
      exists i', b', s'. split; [intros ->; simplify_eq; lia|].
      split; [done|]. split; [congruence|]. apply Hh'. lia. }
    split; [done|]. split; [by eapply lookup_pool_solo|].
    split; [done|]. split; [done|]. split; [done|]. split; [lia|].
    split; [|split].
    + intros Hrk. rewrite Hrk in Hlast. congruence.
    + intros Hkr. destruct (Hlater Hkr) as (i' & b' & s' & ? & ? & ? & _).
      eauto 10.
    + intros blk Hblk. unfold Height.
      destruct (decide (k < pred (length (installed (shared cfg)))))
        as [Hkr|Hkr].
      * destruct (Hlater Hkr) as (i' & b' & s' & _ & _ & Hp & Hh').
        rewrite Hp in Hblk. simpl in Hblk. by apply Hh'.
      * assert (pred (length (installed (shared cfg))) = k) as Hrk by lia.
        rewrite Hrk in Hlast.
        assert (State (state (shared cfg)) = (b, s)) as Hp by congruence.
        rewrite Hp in Hblk. simpl in Hblk. apply Hh; [lia|done].
Qed.

(** ** Waiting for a height *)

(** The goroutine that holds the mutex can always execute its next
    statement, and gets closer to releasing the mutex. *)
Lemma critical_progress j pl g sh :
  ginv sh g → critical g = true → cond_L sh = Some j →
  ∃ g' sh',
    gstep sto j false pl g sh = Some (g', sh', []) ∧
    if critical g'
    then steps_to_unlock g' < steps_to_unlock g ∧ cond_L sh' = Some j
    else cond_L sh' = None.
Proof.
  intros Hg Hc HL.
  destruct g; simpl in Hc; try discriminate;
    repeat (destruct pc as [|pc]; try discriminate Hc);
    unfold gstep, step_setState, step_Height, step_TimestampMS, step_State,
      step_BlockWaiter, step_BlockSoonWaiter, step_heights, Unlock;
    rewrite ?HL; simpl in Hg |- *; spec_arith; subst;
    repeat case_match; simplify_eq; simpl;
    unfold advances in *;
    repeat match goal with
           | |- context [?x ≫= _] => destruct x; [simpl|done]
           end;
    eexists _, _; (split; [reflexivity|]); simpl;
    first [done | split; [lia|done]].
Qed.

Lemma run_height ls cfg cfg' :
  reachable Empty sto cfg → run sto ls cfg = Some cfg' →
  (height (state (shared cfg)) ≤ height (state (shared cfg')))%Z.
Proof.
  revert cfg. induction ls as [|l ls IH]; intros cfg Hr H.
  - cbv in H. by simplify_eq.
  - change (run sto (l :: ls) cfg) with (step sto l cfg ≫= run sto ls) in H.
    destruct (step sto l cfg) as [cfg1|] eqn:Hs; [|done]. simpl in H.
    etrans; [eapply step_height; [by eapply reachable_Inv|done]|].
    eapply IH; [|done]. by eapply reachable_step.
Qed.

Lemma steps_to_unlock_bounds g :
  critical g = true → 1 ≤ steps_to_unlock g ≤ 6.
Proof.
  destruct g; simpl; intros Hc; try discriminate;
    repeat (destruct pc as [|pc]; try discriminate Hc); simpl; lia.
Qed.

(** Whoever holds the mutex releases it after a few statements of its
    own, and changes no other goroutine on the way. *)
Lemma mutex_released n cfg j g :
  reachable Empty sto cfg →
  cond_L (shared cfg) = Some j → pool cfg !! j = Some g →
  steps_to_unlock g ≤ n →
  ∃ m cfg',
    m ≤ n ∧
    run sto (replicate m (Run j false)) cfg = Some cfg' ∧
    cond_L (shared cfg') = None ∧
    ∀ k, k ≠ j → pool cfg' !! k = pool cfg !! k.
Proof.
  revert cfg g. induction n as [|n IH]; intros cfg g Hr HL Hj Hn.
  all: pose proof (reachable_Inv _ _ _ Hr) as HInv.
  all: destruct (inv_held _ HInv _ HL) as (g0 & Hj0 & Hc);
    rewrite Hj in Hj0; injection Hj0 as <-.
  all: pose proof (steps_to_unlock_bounds _ Hc) as Hb.
  { lia. }
  destruct (critical_progress j (pool cfg) g (shared cfg)
              (inv_local _ HInv _ _ Hj) Hc HL)
    as (g' & sh' & Hs & Hnext).
  assert (Hstep : step sto (Run j false) cfg =
         Some (mkConfig sh' (<[j := g']> (pool cfg) ++ [])))
    by (simpl; rewrite Hj; simpl; by rewrite Hs).
  assert (Hframe : ∀ k, k ≠ j →
         (<[j := g']> (pool cfg) ++ []) !! k = pool cfg !! k)
    by (intros k Hk; by rewrite app_nil_r, list_lookup_insert_ne).
  destruct (critical g') eqn:Hc'.
  - destruct Hnext as [Hlt HL'].
    destruct (IH (mkConfig sh' (<[j := g']> (pool cfg) ++ [])) g')
      as (m & cfg' & Hm & Hrun & Hfree & Hsame);
      [by eapply reachable_step|done| |lia|].
    { by eapply lookup_pool_solo. }
    exists (S m), cfg'. split; [lia|]. split; [|split; [done|]].
    + change (run sto (replicate (S m) (Run j false)) cfg)
        with (step sto (Run j false) cfg
              ≫= run sto (replicate m (Run j false))).
      by rewrite Hstep.
    + intros k Hk. rewrite Hsame by done. by apply Hframe.
  - exists 1, (mkConfig sh' (<[j := g']> (pool cfg) ++ [])).
    split; [lia|]. split; [|done].
    change (run sto (replicate 1 (Run j false)) cfg)
      with (step sto (Run j false) cfg ≫= run sto []).
    by rewrite Hstep.
Qed.

Lemma holder_steps_held m cfg j :
  cond_L (shared cfg) = Some j →
  holder_steps m cfg = replicate m (Run j false).
Proof. unfold holder_steps. by intros ->. Qed.

Lemma holder_steps_none cfg : holder_steps 0 cfg = [].
Proof. unfold holder_steps. by destruct (cond_L (shared cfg)). Qed.

(** With the mutex free and the height reached, a waiter that is outside
    its critical section sends within four statements of its own. *)
Lemma waiter_sends cfg i target pc :
  reachable Empty sto cfg →
  cond_L (shared cfg) = None →
  pool cfg !! i = Some (go_BlockWaiter target pc []) →
  pc = 0 ∨ pc = 4 ∨ pc = 5 →
  (target ≤ height (state (shared cfg)))%Z →
  ∃ m cfg',
    m ≤ 4 ∧
    run sto (replicate m (Run i false)) cfg = Some cfg' ∧
    pool cfg' !! i = Some (go_BlockWaiter target 7 [()]).
Proof.
  intros Hr HL Hi Hpc Hh. pose proof (reachable_Inv _ _ _ Hr) as HInv.
  assert (Hn : pc = 4 → i ∉ cond_notify (shared cfg)).
  { intros -> Hin.
    destruct (inv_parked _ HInv _ Hin) as (t & pc & ch & Hi' & _ & Hcond).
    rewrite Hi in Hi'. simplify_eq.
    destruct Hcond as [|(k & gk & Hk & Hb)]; [lia|].
    assert (critical gk = true) as Hc.
    { destruct gk; simpl in Hb; repeat case_match; done. }
    pose proof (inv_holder _ HInv _ _ Hk Hc). congruence. }
  assert (Hlt : (height (state (shared cfg)) <? target)%Z = false)
    by (by apply Z.ltb_ge).
  destruct cfg as [[st L n q σ lg inst] pl]. simpl in *. subst L.
  destruct Hpc as [->|[->| ->]].
  - exists 3. eexists. split; [lia|]. split.
    { rewrite (run_solo_start _ _ _ _ Hi). simpl.
      solo Hi. erewrite run_solo; [|exact Hi|simpl; rewrite Hlt; reflexivity].
      solo Hi. reflexivity. }
    by eapply lookup_pool_solo.
  - exists 4. eexists. split; [lia|]. split.
    { rewrite (run_solo_start _ _ _ _ Hi). simpl.
      erewrite run_solo; [|exact Hi|simpl;
        rewrite (bool_decide_eq_false_2 _ (Hn eq_refl)); reflexivity].
      solo Hi. erewrite run_solo; [|exact Hi|simpl; rewrite Hlt; reflexivity].
      solo Hi. reflexivity. }
    by eapply lookup_pool_solo.
  - exists 3. eexists. split; [lia|]. split.
    { rewrite (run_solo_start _ _ _ _ Hi). simpl.
      solo Hi. erewrite run_solo; [|exact Hi|simpl; rewrite Hlt; reflexivity].
      solo Hi. reflexivity. }
    by eapply lookup_pool_solo.
Qed.

Lemma gstep_waiter_chan i (cb : bool) pl target pc ch sh g' sh' new :
  gstep sto i cb pl (go_BlockWaiter target pc ch) sh = Some (g', sh', new) →
  ∃ pc' ch', g' = go_BlockWaiter target pc' ch' ∧ ch `prefix_of` ch'.
Proof.
  intros H. simpl in H. gstep_inv H; eexists _, _; (split; [done|]);
    first [done | by apply prefix_app_r].
Qed.

(** A waiter stays the waiter it is, and what it has sent stays sent. *)
Lemma waiter_persists l cfg cfg' i target pc ch :
  step sto l cfg = Some cfg' →
  pool cfg !! i = Some (go_BlockWaiter target pc ch) →
  ∃ pc' ch',
    pool cfg' !! i = Some (go_BlockWaiter target pc' ch') ∧
    ch `prefix_of` ch'.
Proof.
  intros H Hi. destruct l as [j c|g|j e|ps].
  - destruct (pool cfg !! j) as [gj|] eqn:Hj; [|by simpl in H; rewrite Hj in H].
    destruct (step_Run_inv _ _ _ _ _ Hj H) as (g' & sh' & new & Hs & ->).
    simpl. destruct (decide (i = j)) as [->|Hne].
    + rewrite Hi in Hj. injection Hj as <-.
      destruct (gstep_waiter_chan _ _ _ _ _ _ _ _ _ _ Hs)
        as (pc' & ch' & -> & Hpre).
      exists pc', ch'. split; [|done]. apply lookup_pool_step_eq.
      by eapply lookup_lt_Some.
    + exists pc, ch. split; [|done]. by apply lookup_pool_step_ne.
  - simpl in H. case_match; [|done]. simplify_eq. simpl.
    exists pc, ch. split; [|done]. by apply lookup_app_l_Some.
  - simpl in H. case_match; [|done].
    destruct (pool cfg !! j) as [gj|] eqn:Hj; [|done]. simpl in H.
    destruct (cancel e gj) as [gj'|] eqn:Hc; [|done]. simpl in H.
    simplify_eq. simpl. exists pc, ch. split; [|done].
    rewrite list_lookup_insert_ne; [done|]. intros ->.
    rewrite Hi in Hj. by simplify_eq.
  - simpl in H. case_match; [|done]. simplify_eq. simpl. eauto.
Qed.

(** C6: the channel of [BlockWaiter(H)] gets a value only once the height
    is at least H, and at most one value ever; what has been sent stays
    sent. A waiter is parked only while the height is below H or a
    Broadcast is about to come. Once the height is at least H the waiter
    does resolve, with no help from any other call: from every
    configuration the chain can be in, at most six statements of the
    goroutine that holds the mutex (none when the mutex is free) and then
    at most four statements of the waiter itself put the value on the
    channel. *)
Theorem BlockWaiter_resolves_at_height cfg i target pc ch :
  reachable Empty sto cfg →
  pool cfg !! i = Some (go_BlockWaiter target pc ch) →
  (ch = [] ∨ ch = [()]) ∧
  (ch = [()] → (target ≤ Height (state (shared cfg)))%Z) ∧
  (i ∈ cond_notify (shared cfg) →
   (Height (state (shared cfg)) < target)%Z ∨
   ∃ k gk, pool cfg !! k = Some gk ∧ broadcast_pending gk = true) ∧
  (∀ l cfg', step sto l cfg = Some cfg' →
     ∃ pc' ch',
       pool cfg' !! i = Some (go_BlockWaiter target pc' ch') ∧
       (ch = [()] → ch' = [()])) ∧
  ((target ≤ Height (state (shared cfg)))%Z →
   ∃ m n cfg' pc',
     m ≤ 6 ∧ n ≤ 4 ∧
     run sto (holder_steps m cfg ++ replicate n (Run i false)) cfg =
       Some cfg' ∧
     pool cfg' !! i = Some (go_BlockWaiter target pc' [()])).
Proof.
  intros Hr Hi. pose proof (reachable_Inv _ _ _ Hr) as HInv.
  pose proof (inv_local _ HInv _ _ Hi) as (H6 & H7 & Hge & Hlt).
  unfold Height.
  split; [|split; [|split; [|split]]].
  - destruct (decide (pc ≤ 6)); [left; auto|right; apply H7; lia].
  - intros ->. apply Hge. destruct (decide (pc ≤ 6)) as [Hle|]; [|lia].
    by specialize (H6 Hle).
  - intros Hin.
    destruct (inv_parked _ HInv _ Hin) as (t & pc0 & ch0 & Hi0 & _ & Hcond).
    rewrite Hi in Hi0. by simplify_eq.
  - intros l cfg' Hs.
    destruct (waiter_persists _ _ _ _ _ _ _ Hs Hi) as (pc' & ch' & Hi' & Hpre).
    exists pc', ch'. split; [done|]. intros ->.
    pose proof (reachable_step _ _ _ _ _ Hr Hs) as Hr'.
    pose proof (inv_local _ (reachable_Inv _ _ _ Hr') _ _ Hi')
      as (H6' & H7' & _).
    destruct (decide (pc' ≤ 6)) as [Hle|]; [|apply H7'; lia].
    rewrite (H6' Hle) in Hpre. by apply prefix_nil_not in Hpre.
  - intros Hh. destruct (decide (7 ≤ pc)) as [Hpc|Hpc].
    { exists 0, 0, cfg, pc. rewrite holder_steps_none, <- (H7 Hpc).
      repeat split; [lia..|done]. }
    assert (ch = []) as -> by (apply H6; lia).
    assert (Hltb : (height (state (shared cfg)) <? target)%Z = false)
      by (by apply Z.ltb_ge).
    assert (pc = 1 ∨ pc = 6 ∨ pc = 0 ∨ pc = 4 ∨ pc = 5)
      as [->|[->|Hout]] by lia.
    + pose proof (inv_holder _ HInv _ _ Hi eq_refl) as HL.
      exists 2, 0. rewrite (holder_steps_held _ _ _ HL), app_nil_r.
      destruct cfg as [[st L n q σ lg inst] pl]. simpl in *. subst L.
      eexists. exists 7. split; [lia|]. split; [lia|]. split.
      { rewrite (run_solo_start _ _ _ _ Hi). simpl.
        erewrite run_solo; [|exact Hi|simpl; rewrite Hltb; reflexivity].
        solo Hi. reflexivity. }
      by eapply lookup_pool_solo.
    + pose proof (inv_holder _ HInv _ _ Hi eq_refl) as HL.
      exists 1, 0. rewrite (holder_steps_held _ _ _ HL), app_nil_r.
      destruct cfg as [[st L n q σ lg inst] pl]. simpl in *.
      eexists. exists 7. split; [lia|]. split; [lia|]. split.
      { rewrite (run_solo_start _ _ _ _ Hi). simpl.
        solo Hi. reflexivity. }
      by eapply lookup_pool_solo.
    + destruct (cond_L (shared cfg)) as [j|] eqn:HL.
      * destruct (inv_held _ HInv _ HL) as (gj & Hj & Hc).
        assert (j ≠ i) as Hne.
        { intros ->. rewrite Hi in Hj. injection Hj as <-.
          destruct Hout as [->|[->| ->]]; done. }
        pose proof (steps_to_unlock_bounds _ Hc) as Hb.
        destruct (mutex_released _ _ _ _ Hr HL Hj (le_n _))
          as (m & cfg1 & Hm & Hrun1 & HL1 & Hsame).
        pose proof (run_reachable _ _ _ Hr Hrun1) as Hr1.
        pose proof (run_height _ _ _ Hr Hrun1) as Hh1.
        destruct (waiter_sends cfg1 i target pc Hr1 HL1)
          as (m2 & cfg2 & Hm2 & Hrun2 & Hi2); [|done|lia|].
        { by rewrite Hsame. }
        exists m, m2, cfg2, 7. split; [lia|]. split; [done|].
        split; [|done].
        rewrite (holder_steps_held _ _ _ HL), run_app, Hrun1. done.
      * destruct (waiter_sends cfg i target pc Hr HL Hi Hout Hh)
          as (m & cfg' & Hm & Hrun & Hi').
        exists 0, m, cfg', 7. rewrite holder_steps_none.
        split; [lia|]. split; [done|]. split; done.
Qed.

End claims.

(** ** The claims at concrete chains *)

(** C2, the claim as written fails: a chain started on an empty store,
    then [setState] with a block at height 5, then [setState] with a block
    at height 3. The spec's invariant holds after the first two and not
    after the third: the block is the one at height 3, the height is 5. *)
Lemma setState_breaks_block_at_height :
  ∃ cfg,
    NewChain 7%nat emptyStore None () None = (Some cfg, None) ∧
    let c1 := (setState (Some block5) (Some 8%nat) (state (shared cfg))).1 in
    let c2 := (setState (Some block3) (Some 9%nat) c1).1 in
    block_at_height (state (shared cfg)) ∧
    block_at_height c1 ∧
    ¬ block_at_height c2 ∧
    block c2 = Some block3 ∧ height c2 = 5.
Proof.
  eexists. split; [reflexivity|]. simpl. unfold block_at_height. simpl.
  repeat split; done.
Qed.

(** C3, the claim as written fails: on a store at height 1 whose
    [GetBlock] answers NotFound, [NewChain] returns a chain and a nil
    error; the chain has height 1 and a nil block. *)
Lemma NewChain_survives_NotFound :
  (Store.GetBlock (brokenStore 1) 1 []).1.2 = Some NotFound ∧
  ∃ cfg,
    NewChain 7%nat (brokenStore 1) None [] None = (Some cfg, None) ∧
    height (state (shared cfg)) = 1 ∧
    block (state (shared cfg)) = None.
Proof. split; [done|]. eexists. split; [reflexivity|]. done. Qed.

(** C4, the code at the top of uint64: with the chain at height 2^64-1
    the sum [c.Height()+slop] wraps around to 2, so [BlockSoonWaiter] for
    height 5 sends [ErrTheDistantFuture], although 5 is not greater than
    the height plus 3. *)
Lemma BlockSoonWaiter_wraps_at_top :
  is_uint64 (legacy.Height topBlock) = true ∧
  ¬ (5 > legacy.Height topBlock + 3) ∧
  tooDistant 5 (legacy.Height topBlock) = true ∧
  ∃ cfg cfg',
    NewChain 7%nat (storeAt topBlock 7) None () None = (Some cfg, None) ∧
    Height (state (shared cfg)) = legacy.Height topBlock ∧
    run (storeAt topBlock 7)
      (Call (go_BlockSoonWaiter 5 None 0 0 0 []) :: replicate 5 (Run 1 true))
      cfg = Some cfg' ∧
    pool cfg' !! 1%nat =
      Some (go_BlockSoonWaiter 5 None 5 (legacy.Height topBlock) 0
              [Some ErrTheDistantFuture]).
Proof.
  split; [done|]. split; [by vm_compute|]. split; [done|].
  eexists _, _. split; [reflexivity|]. split; [done|].
  split; [vm_compute; reflexivity|]. done.
Qed.

(** C10 at a chain of height 5: [setState] with the block at height 3. *)
Lemma setState_overwrites_witness :
  setState (Some block3) (Some 9%nat)
    (mkChainState 5 (Some block5) (Some 8%nat)) =
  (mkChainState 5 (Some block3) (Some 9%nat), false).
Proof.
  apply (setState_overwrites_without_advancing emptyStore block3
           (Some 9%nat) (mkChainState 5 (Some block5) (Some 8%nat))).
  simpl. lia.
Defined.

(** C9 at [savingConfig]: the write of the waiting request fails. *)
Lemma SaveSnapshot_failure_witness :
  ∃ cfg',
    run (brokenStore 1) (replicate 4 (Run 0 false)) savingConfig = Some cfg' ∧
    logs (shared cfg') =
      [LogPrintf "bytom's Height:%v." 1;
       LogError (errorString "disk full") "at" "saving snapshot"] ∧
    store (shared cfg') = [1] ∧
    pendingSnapshots (shared cfg') = [] ∧
    state (shared cfg') = state (shared savingConfig).
Proof.
  destruct (SaveSnapshot_failure_is_logged (brokenStore 1) savingConfig 0
              None None None (mkPending 1 (Some 7%nat)) []
              (errorString "disk full") [1])
    as [(cfg' & Hrun & Hpool & Hsh & Hst & _) _]; [reflexivity..|].
  exists cfg'. split; [exact Hrun|]. rewrite Hsh. repeat split.
Defined.

(** C5, the claim as written fails: a chain started on an empty store,
    [setState] with the block at height 5 and snapshot 8 runs to its
    return, then [setState] with the block at height 3 and snapshot 9 runs
    to its return, then a [State()] call and a [Height()] call run to
    their returns. [State()] returns the pair (block at height 3, 9), a
    whole pair, while the height [Height()] returns is 5: not the height
    of the pair returned. *)
Lemma State_pair_below_the_height :
  ∃ cfg cfg',
    NewChain 7%nat emptyStore None () None = (Some cfg, None) ∧
    run emptyStore
      (Call (go_setState (Some block5) (Some 8%nat) 0 None) ::
       replicate 7 (Run 1 false) ++
       Call (go_setState (Some block3) (Some 9%nat) 0 None) ::
       replicate 5 (Run 2 false) ++
       Call (go_State 0 None 0) :: replicate 3 (Run 3 false) ++
       Call (go_Height 0 None) :: replicate 3 (Run 4 false))
      cfg = Some cfg' ∧
    pool cfg' !! 1%nat =
      Some (go_setState (Some block5) (Some 8%nat) 7 (Some 1%nat)) ∧
    pool cfg' !! 2%nat =
      Some (go_setState (Some block3) (Some 9%nat) 7 (Some 2%nat)) ∧
    pool cfg' !! 3%nat =
      Some (go_State 3 (Some (Some block3, Some 9%nat)) 2) ∧
    pool cfg' !! 4%nat = Some (go_Height 3 (Some 5)) ∧
    Height (state (shared cfg')) = 5 ∧
    legacy.Height block3 = 3 ∧
    Height (state (shared cfg')) ≠ legacy.Height block3.
Proof.
  eexists _, _. split; [reflexivity|]. split; [vm_compute; reflexivity|].
  repeat split; done.
Qed.

(** C5 at [readingConfig]: [setState] with the block at height 5 has
    returned, and the [State()] call reads. *)
Lemma State_returns_witness :
  ∃ k r p,
    pool readConfig !! 2%nat = Some (go_State 2 (Some p) r) ∧
    p = (Some block5, Some 8%nat) ∧ k = 1%nat ∧ r = 1%nat.
Proof.
  destruct (State_returns_a_whole_pair 7%nat emptyStore readingConfig)
    as (_ & _ & Hread).
  - eapply (run_reachable 7%nat emptyStore readingTrace freshConfig).
    + by eapply (reachable_NewChain 7%nat emptyStore None () None).
    + vm_compute. reflexivity.
  - destruct (Hread 1%nat (Some block5) (Some 8%nat) (Some 1%nat) 2%nat
                None 0%nat false readConfig eq_refl eq_refl eq_refl)
      as (k & r & p & Hk & Hj & Hp & _ & _ & _ & _ & _ & _).
    exists k, r, p. split; [exact Hj|]. split; [exact Hp|].
    split; [by injection Hk as <-|].
    vm_compute in Hj. by injection Hj as _ <-.
Defined.

(** C6 at [waitingConfig]: the mutex is free, the height is 5 and the
    waiter for height 3 sends by its own statements. *)
Lemma BlockWaiter_resolves_witness :
  ∃ m n cfg' pc',
    (m ≤ 6)%nat ∧ (n ≤ 4)%nat ∧
    run (storeAt block5 7)
      (holder_steps m waitingConfig ++ replicate n (Run 1 false))
      waitingConfig = Some cfg' ∧
    pool cfg' !! 1%nat = Some (go_BlockWaiter 3 pc' [()]).
Proof.
  destruct (BlockWaiter_resolves_at_height 7%nat (storeAt block5 7)
              waitingConfig 1 3 0 []) as (_ & _ & _ & _ & Hlive).
  - eapply (reachable_step 7%nat (storeAt block5 7)
              (Call (go_BlockWaiter 3 0 []))).
    + by eapply (reachable_NewChain 7%nat (storeAt block5 7) None () None).
    + reflexivity.
  - reflexivity.
  - apply Hlive. vm_compute. discriminate.
Defined.

(** * Further properties of the code *)

Section further_properties.
Context {Snapshot St : Type} (Empty : Snapshot) (sto : Store.t Snapshot St).
Implicit Types (sh : @Shared Snapshot St) (g : @goroutine Snapshot).
Implicit Types (cfg : @Config Snapshot St) (c : @ChainState Snapshot).
Implicit Types (calls : list (option legacy.Block * option Snapshot)).
Implicit Types (call : option legacy.Block * option Snapshot).

Local Arguments run : simpl never.

(** ** Sequences of setState calls *)

Lemma setStates_snoc calls call c :
  setStates (calls ++ [call]) c =
  (setState call.1 call.2 (setStates calls c)).1.
Proof. unfold setStates. by rewrite fold_left_app. Qed.

Lemma highest_snoc h calls call :
  highest h (calls ++ [call]) =
  match call.1 with
  | Some blk => Z.max (highest h calls) (legacy.Height blk)
  | None => highest h calls
  end.
Proof. unfold highest. by rewrite fold_left_app. Qed.

(** X1: after any sequence of [setState] calls the height is the greatest
    of the height before and the heights of the non-nil blocks passed,
    while the block and the snapshot are those of the last call: the
    highest height wins, the last pair wins. *)
Theorem setStates_highest_and_last calls c :
  height (setStates calls c) = highest (height c) calls ∧
  ∀ calls' b s, calls = calls' ++ [(b, s)] →
    State (setStates calls c) = (b, s).
Proof.
  split.
  - induction calls as [|call calls IH] using rev_ind; [done|].
    rewrite setStates_snoc, highest_snoc, setState_height, IH.
    unfold advances. destruct (call.1) as [blk|]; [|done].
    rewrite <- IH.
    destruct (Z.gtb_spec (legacy.Height blk) (height (setStates calls c)));
      lia.
  - intros calls' b s ->. rewrite setStates_snoc. unfold State. simpl.
    by rewrite setState_block, setState_snapshot.
Qed.

(** ** The mutex *)

Local Open Scope nat_scope.

(** X2: at most one goroutine is between [Lock] and [Unlock] at any time,
    and it is the one that holds the mutex. *)
Theorem mutual_exclusion cfg i j gi gj :
  reachable Empty sto cfg →
  pool cfg !! i = Some gi → critical gi = true →
  pool cfg !! j = Some gj → critical gj = true →
  i = j ∧ cond_L (shared cfg) = Some i.
Proof.
  intros Hr Hi Hci Hj Hcj. apply reachable_Inv in Hr.
  pose proof (inv_holder _ Hr _ _ Hi Hci) as HLi.
  pose proof (inv_holder _ Hr _ _ Hj Hcj) as HLj.
  split; [congruence|done].
Qed.

Lemma mutex_released_within n cfg j g :
  reachable Empty sto cfg →
  cond_L (shared cfg) = Some j → pool cfg !! j = Some g →
  steps_to_unlock g ≤ n →
  ∃ m cfg',
    m ≤ n ∧
    run sto (replicate m (Run j false)) cfg = Some cfg' ∧
    cond_L (shared cfg') = None.
Proof.
  revert cfg g. induction n as [|n IH]; intros cfg g Hr HL Hj Hn.
  all: pose proof (reachable_Inv _ _ _ Hr) as HInv.
  all: destruct (inv_held _ HInv _ HL) as (g0 & Hj0 & Hc);
    rewrite Hj in Hj0; injection Hj0 as <-.
  all: pose proof (steps_to_unlock_bounds _ Hc) as Hb.
  { lia. }
  destruct (critical_progress sto j (pool cfg) g (shared cfg)
              (inv_local _ HInv _ _ Hj) Hc HL)
    as (g' & sh' & Hs & Hnext).
  assert (Hstep : step sto (Run j false) cfg =
         Some (mkConfig sh' (<[j := g']> (pool cfg) ++ [])))
    by (simpl; rewrite Hj; simpl; by rewrite Hs).
  destruct (critical g') eqn:Hc'.
  - destruct Hnext as [Hlt HL'].
    destruct (IH (mkConfig sh' (<[j := g']> (pool cfg) ++ [])) g')
      as (m & cfg' & Hm & Hrun & Hfree);
      [by eapply reachable_step|done| |lia|].
    { by eapply lookup_pool_solo. }
    exists (S m), cfg'. split; [lia|]. split; [|done].
    change (run sto (replicate (S m) (Run j false)) cfg)
      with (step sto (Run j false) cfg
            ≫= run sto (replicate m (Run j false))).
    by rewrite Hstep.
  - exists 1, (mkConfig sh' (<[j := g']> (pool cfg) ++ [])).
    split; [lia|]. split; [|done].
    change (run sto (replicate 1 (Run j false)) cfg)
      with (step sto (Run j false) cfg ≫= run sto []).
    by rewrite Hstep.
Qed.

(** X3: a goroutine never blocks while it holds the mutex: whoever holds
    it gives it up within six statements of its own ([Unlock], or the
    unlock inside [Wait]). *)
Theorem mutex_holder_releases cfg j :
  reachable Empty sto cfg →
  cond_L (shared cfg) = Some j →
  ∃ m cfg',
    m ≤ 6 ∧
    run sto (replicate m (Run j false)) cfg = Some cfg' ∧
    cond_L (shared cfg') = None.
Proof.
  intros Hr HL. pose proof (reachable_Inv _ _ _ Hr) as HInv.
  destruct (inv_held _ HInv _ HL) as (g & Hj & Hc).
  destruct (mutex_released_within _ _ _ _ Hr HL Hj (le_n _))
    as (m & cfg' & Hm & Hrun & Hfree).
  pose proof (steps_to_unlock_bounds _ Hc). exists m, cfg'.
  split; [lia|done].
Qed.

(** ** Calls that run alone *)

Local Open Scope Z_scope.

(** One statement of a goroutine running alone. *)
Ltac alone Hi :=
  erewrite run_solo; [|exact Hi|simpl; try reflexivity].

(** X4: when [b] is non-nil and [b.Height] is above the current height,
    [setState(b, s)] installs the pair, raises the height to [b.Height]
    and calls Broadcast: a call that runs from a free mutex ends with the
    notify list empty, so it wakes every parked waiter, whatever height
    the waiter waits for. *)
Theorem setState_advancing_wakes_all blk s c :
  height c < legacy.Height blk →
  setState (Some blk) s c =
    (mkChainState (legacy.Height blk) (Some blk) s, true) ∧
  ∀ cfg i,
    state (shared cfg) = c →
    cond_L (shared cfg) = None →
    pool cfg !! i = Some (go_setState (Some blk) s 0 None) →
    ∃ cfg',
      run sto (replicate 7 (Run i false)) cfg = Some cfg' ∧
      state (shared cfg') = mkChainState (legacy.Height blk) (Some blk) s ∧
      cond_notify (shared cfg') = [] ∧
      cond_L (shared cfg') = None.
Proof.
  intros Hlt.
  assert (Hgt : (legacy.Height blk >? height c) = true).
  { destruct (Z.gtb_spec (legacy.Height blk) (height c)); [done|lia]. }
  split.
  { unfold setState. simpl. by rewrite Hgt. }
  intros [[st L n q σ lg inst] pl] i Hst HL Hi. simpl in Hst, HL, Hi.
  subst. eexists. split.
  { rewrite (run_solo_start _ _ _ _ Hi). simpl.
    alone Hi. alone Hi. alone Hi.
    erewrite run_solo; [|exact Hi|simpl; rewrite Hgt; reflexivity].
    alone Hi. alone Hi. alone Hi. reflexivity. }
  done.
Qed.

(** X5: a [BlockWaiter] for a height that is already reached sends at
    once: from a free mutex its goroutine locks, tests, sends and unlocks,
    four statements, and leaves the shared memory as it found it; it never
    enters the notify list. *)
Theorem BlockWaiter_reached_sends_at_once cfg i target :
  target ≤ height (state (shared cfg)) →
  cond_L (shared cfg) = None →
  pool cfg !! i = Some (go_BlockWaiter target 0 []) →
  run sto (replicate 4 (Run i false)) cfg =
  Some (mkConfig (shared cfg)
          (<[i := go_BlockWaiter target 8 [()]]> (pool cfg))).
Proof.
  intros Hh HL Hi.
  assert (Hlt : (height (state (shared cfg)) <? target) = false)
    by (by apply Z.ltb_ge).
  destruct cfg as [[st L n q σ lg inst] pl]. simpl in *. subst L.
  rewrite (run_solo_start _ _ _ _ Hi). simpl.
  alone Hi. erewrite run_solo; [|exact Hi|simpl; rewrite Hlt; reflexivity].
  alone Hi. alone Hi. rewrite app_nil_r. reflexivity.
Qed.

(** X6: below its height a [BlockWaiter] sends nothing and sleeps. Whether
    it has just been called or has just been woken by a Broadcast, from a
    free mutex it tests the height again, puts itself on the notify list,
    unlocks, and then has no statement to execute until a Broadcast takes
    it off the list: it does not spin. *)
Theorem BlockWaiter_below_target_parks cfg i target pc :
  height (state (shared cfg)) < target →
  cond_L (shared cfg) = None →
  i ∉ cond_notify (shared cfg) →
  pool cfg !! i = Some (go_BlockWaiter target pc []) →
  pc = 0%nat ∨ pc = 4%nat →
  ∃ m cfg',
    run sto (replicate m (Run i false)) cfg = Some cfg' ∧
    pool cfg' = <[i := go_BlockWaiter target 4 []]> (pool cfg) ∧
    shared cfg' =
      with_notify (cond_notify (shared cfg) ++ [i]) (shared cfg) ∧
    ∀ choice, step sto (Run i choice) cfg' = None.
Proof.
  intros Hh HL Hn Hi Hpc.
  assert (Hlt : (height (state (shared cfg)) <? target) = true)
    by (by apply Z.ltb_lt).
  destruct cfg as [[st L n q σ lg inst] pl]. simpl in *. subst L.
  assert (Hblocked : ∀ choice,
    step sto (Run i choice)
      (mkConfig (mkShared st None (n ++ [i]) q σ lg inst)
         (<[i := go_BlockWaiter target 4 []]> pl ++ [])) = None).
  { intros choice. simpl. erewrite lookup_pool_solo by done. simpl.
    rewrite bool_decide_eq_true_2; [done|].
    apply elem_of_app. right. by apply list_elem_of_singleton. }
  destruct Hpc as [->| ->].
  - exists 4%nat. eexists. split.
    { rewrite (run_solo_start _ _ _ _ Hi). simpl.
      alone Hi. erewrite run_solo; [|exact Hi|simpl; rewrite Hlt; reflexivity].
      alone Hi. alone Hi. reflexivity. }
    simpl. split; [by rewrite app_nil_r|]. split; [done|]. exact Hblocked.
  - exists 5%nat. eexists. split.
    { rewrite (run_solo_start _ _ _ _ Hi). simpl.
      erewrite run_solo; [|exact Hi|simpl;
        rewrite (bool_decide_eq_false_2 _ Hn); reflexivity].
      alone Hi. erewrite run_solo; [|exact Hi|simpl; rewrite Hlt; reflexivity].
      alone Hi. alone Hi. reflexivity. }
    simpl. split; [by rewrite app_nil_r|]. split; [done|]. exact Hblocked.
Qed.

(** ** What goroutines have read *)

Local Open Scope nat_scope.

Lemma reads_below_mono sh sh' (pl pl' : list (@goroutine Snapshot)) g :
  reads_below sh pl g →
  (height (state sh) ≤ height (state sh'))%Z →
  (∀ w t pc ch, pl !! w = Some (go_BlockWaiter t pc ch) →
     ∃ pc' ch', pl' !! w = Some (go_BlockWaiter t pc' ch')) →
  reads_below sh' pl' g.
Proof.
  intros Hg Hh Hw. destruct g; simpl in *; try done.
  - intros v Hv. specialize (Hg v Hv). lia.
  - destruct Hg as (H2 & H7 & H8 & Hnil & Hctx & H9).
    repeat split; intros; try (specialize (H2 ltac:(done)); lia);
      try (specialize (H8 ltac:(done)); lia);
      try (specialize (Hnil ltac:(done)); lia); eauto.
    destruct H7 as (pc' & ch' & Hl); [done|]. eauto.
Qed.

Lemma reads_below_entry sh (pl : list (@goroutine Snapshot)) g :
  entry g = true → reads_below sh pl g.
Proof.
  intros He. destruct g; simpl in *; try done; repeat case_match;
    simplify_eq; repeat split; intros; try done; try lia.
Qed.

Lemma reads_below_cancel sh (pl : list (@goroutine Snapshot)) e g g' :
  cancel e g = Some g' → reads_below sh pl g → reads_below sh pl g'.
Proof.
  intros Hc Hg. destruct g; simpl in Hc; repeat case_match; simplify_eq;
    simpl in *; try done.
  destruct Hg as (H2 & H7 & H8 & Hnil & Hctx & H9).
  repeat split; try done. intros e0 Hch He0.
  by specialize (Hctx e0 Hch He0).
Qed.

(** One statement keeps what the goroutine that executes it has read. *)
Lemma gstep_reads j cb (pl : list (@goroutine Snapshot)) gj sh g' sh' new :
  gstep sto j cb pl gj sh = Some (g', sh', new) →
  pl !! j = Some gj →
  ginv sh gj →
  (∀ w t pc ch, pl !! w = Some (go_BlockWaiter t pc ch) → ch ≠ [] →
     (t ≤ height (state sh))%Z) →
  reads_below sh pl gj →
  reads_below sh' (<[j := g']> pl ++ new) g'.
Proof.
  intros Hs Hj Hginv Hsent Hg.
  assert (Hlt : j < length pl) by (by eapply lookup_lt_Some).
  assert (Hkeep : ∀ w t pc ch,
    pl !! w = Some (go_BlockWaiter t pc ch) →
    (∀ t' pc' ch', gj ≠ go_BlockWaiter t' pc' ch') →
    (<[j := g']> pl ++ new) !! w = Some (go_BlockWaiter t pc ch)).
  { intros w t pc ch Hw Hk. apply lookup_pool_step_ne; [|done].
    intros ->. rewrite Hj in Hw. simplify_eq. by eapply Hk. }
  destruct gj; try (gstep_inv Hs; done).
  - simpl in Hs, Hg. gstep_inv Hs; simpl; try done.
    intros v Hv. simplify_eq. done.
  - simpl in Hg. destruct Hg as (H2 & H7 & H8 & Hnil & Hctx & Hmax).
    simpl in Hginv.
    destruct Hginv as (Htyped & Hch & H4 & H6 & H9 & H5).
    simpl in Hs.
    gstep_inv Hs; simpl in *;
      try (specialize (Hch ltac:(lia)); subst);
      repeat split; intros; simplify_eq; try done; try lia;
      try (destruct H as [|[? _]]; lia).
    all: try (destruct (H7 ltac:(lia)) as (pc' & ch' & Hl);
              eexists _, _; eapply Hkeep; [done|congruence]).
    all: try (apply H8; lia).
    + destruct H0 as [|[_ Hd]]; [lia|]. rewrite (H4 eq_refl) in Hd. done.
    + simpl in *. by simplify_eq.
    + eexists _, _. rewrite lookup_app_r by (rewrite length_insert; lia).
      rewrite length_insert, Nat.sub_diag. done.
    + destruct (H7 ltac:(lia)) as (pc' & ch' & Hl).
      unfold waiter_chan in *. rewrite Hl in *. eapply Hsent; [done|].
      congruence.
    + simpl in *. by simplify_eq.
Qed.

Lemma waiter_sent_reached cfg w t pc (ch : list ()) :
  Inv cfg → pool cfg !! w = Some (go_BlockWaiter t pc ch) → ch ≠ [] →
  (t ≤ height (state (shared cfg)))%Z.
Proof.
  intros HInv Hw Hch.
  pose proof (inv_local _ HInv _ _ Hw) as (H6 & _ & Hge & _).
  apply Hge. destruct (decide (pc ≤ 6)) as [Hle|]; [|lia].
  by specialize (H6 Hle).
Qed.

Lemma reads_below_step l cfg cfg' :
  reachable Empty sto cfg →
  (∀ i g, pool cfg !! i = Some g →
     reads_below (shared cfg) (pool cfg) g) →
  step sto l cfg = Some cfg' →
  ∀ i g, pool cfg' !! i = Some g →
    reads_below (shared cfg') (pool cfg') g.
Proof.
  intros Hr IH Hs i g Hi. pose proof (reachable_Inv _ _ _ Hr) as HInv.
  pose proof (step_height _ _ _ _ HInv Hs) as Hh.
  assert (Hw : ∀ w t pc ch,
    pool cfg !! w = Some (go_BlockWaiter t pc ch) →
    ∃ pc' ch', pool cfg' !! w = Some (go_BlockWaiter t pc' ch')).
  { intros w t pc ch Hl.
    destruct (waiter_persists _ _ _ _ _ _ _ _ Hs Hl) as (pc' & ch' & ? & _).
    eauto. }
  destruct l as [j cb|g0|j e|ps].
  - destruct (pool cfg !! j) as [gj|] eqn:Hj;
      [|by simpl in Hs; rewrite Hj in Hs].
    destruct (step_Run_inv _ _ _ _ _ _ Hj Hs) as (g' & sh' & new & Hg & ->).
    simpl in *.
    apply (lookup_pool_step _ _ _ _ _ _ (lookup_lt_Some _ _ _ Hj)) in Hi
      as [[-> ->]|[[Hne Hi]|[_ Hin]]].
    + eapply gstep_reads; eauto using inv_local.
      intros w t pc ch. by apply waiter_sent_reached.
    + eapply reads_below_mono; eauto.
    + eapply gstep_new in Hin as [target ->]; [|done]. done.
  - simpl in Hs. destruct (entry g0) eqn:He; [|done]. simplify_eq.
    simpl in *. apply lookup_app_Some in Hi as [Hi|[_ Hi]].
    + eapply reads_below_mono; eauto.
    + apply list_elem_of_lookup_2, list_elem_of_singleton in Hi as ->.
      by apply reads_below_entry.
  - simpl in Hs. destruct (ctx_err e) eqn:He; [|done].
    destruct (pool cfg !! j) as [gj|] eqn:Hj; [|done]. simpl in Hs.
    destruct (cancel e gj) as [gj'|] eqn:Hc; [|done]. simpl in Hs.
    simplify_eq. simpl in *. destruct (decide (i = j)) as [->|Hne].
    + rewrite list_lookup_insert_eq in Hi by (by eapply lookup_lt_Some).
      simplify_eq. eapply reads_below_cancel; [done|].
      eapply reads_below_mono; eauto.
    + rewrite list_lookup_insert_ne in Hi by done.
      eapply reads_below_mono; eauto.
  - simpl in Hs. case_match; [|done]. simplify_eq. simpl in *.
    specialize (IH _ _ Hi). by destruct g.
Qed.

Lemma reachable_reads_below cfg i g :
  reachable Empty sto cfg → pool cfg !! i = Some g →
  reads_below (shared cfg) (pool cfg) g.
Proof.
  intros Hr. revert i g.
  induction Hr as [ctx st heights cfg err Hctx H|l cfg cfg' Hr IH H].
  - intros i g Hi. unfold NewChain in H. repeat case_match; simplify_eq.
    all: simpl in Hi; apply list_elem_of_lookup_2 in Hi;
      repeat (apply elem_of_cons in Hi as [->|Hi]; [done|]);
      by apply not_elem_of_nil in Hi.
  - by eapply reads_below_step.
Qed.

(** X7: the value [Height()] returns is never above the height the chain
    has at any moment from the read on; the same holds of the height
    [BlockSoonWaiter] compares its target with, which may be an old one by
    the time of the test. *)
Theorem Height_never_reads_ahead cfg i :
  reachable Empty sto cfg →
  (∀ pc v, pool cfg !! i = Some (go_Height pc (Some v)) →
     (v ≤ Height (state (shared cfg)))%Z) ∧
  (∀ target ctx pc cur w ch,
     pool cfg !! i = Some (go_BlockSoonWaiter target ctx pc cur w ch) →
     2 ≤ pc → (cur ≤ Height (state (shared cfg)))%Z).
Proof.
  intros Hr. split.
  - intros pc v Hi.
    pose proof (reachable_reads_below _ _ _ Hr Hi) as Hg. by apply Hg.
  - intros target ctx pc cur w ch Hi Hpc.
    pose proof (reachable_reads_below _ _ _ Hr Hi) as (H2 & _). by apply H2.
Qed.

(** X8: [BlockSoonWaiter] sends nothing before it returns and exactly one
    value when it returns. The value is [ErrTheDistantFuture] when its
    test succeeded; otherwise it is nil, and then the height has reached
    the target, or it is the error of a context that is done, [Canceled]
    or [DeadlineExceeded]. *)
Theorem BlockSoonWaiter_result cfg i target ctx pc cur w ch :
  reachable Empty sto cfg →
  pool cfg !! i = Some (go_BlockSoonWaiter target ctx pc cur w ch) →
  (pc ≠ 5 ∧ ch = []) ∨
  (pc = 5 ∧
   ((tooDistant target cur = true ∧ ch = [Some ErrTheDistantFuture]) ∨
    (tooDistant target cur = false ∧ ch = [None] ∧
     (target ≤ Height (state (shared cfg)))%Z) ∨
    (tooDistant target cur = false ∧
     ∃ e, ch = [Some e] ∧ ctx = Some e ∧ ctx_err e = true))).
Proof.
  intros Hr Hi. pose proof (reachable_Inv _ _ _ Hr) as HInv.
  pose proof (inv_local _ HInv _ _ Hi) as (_ & Hch & _ & _ & _ & H5).
  pose proof (reachable_reads_below _ _ _ Hr Hi)
    as (_ & _ & _ & Hnil & Hctx & _).
  destruct (decide (pc = 5)) as [->|Hne]; [right|left; auto].
  split; [done|].
  destruct (H5 eq_refl) as [[Hd ->]|[Hd [->|(e & He & ->)]]].
  - by left.
  - right; left. repeat split; try done. by apply Hnil.
  - right; right. split; [done|]. exists e. repeat split; try done.
    by apply Hctx.
Qed.

(** X9: the goroutine that [BlockSoonWaiter] starts for its wait is never
    stopped. Once [BlockSoonWaiter] has passed its test, and also after it
    has returned with nil or with the context's error, that [BlockWaiter]
    goroutine is still there, and while the height is below the target it
    has sent nothing: it goes on waiting. *)
Theorem BlockSoonWaiter_leaves_its_waiter cfg i target ctx pc cur w ch :
  reachable Empty sto cfg →
  pool cfg !! i = Some (go_BlockSoonWaiter target ctx pc cur w ch) →
  7 ≤ pc ∨ (pc = 5 ∧ ch ≠ [Some ErrTheDistantFuture]) →
  ∃ pc' ch',
    pool cfg !! w = Some (go_BlockWaiter target pc' ch') ∧
    ((Height (state (shared cfg)) < target)%Z → ch' = [] ∧ pc' ≤ 6).
Proof.
  intros Hr Hi Hpc. pose proof (reachable_Inv _ _ _ Hr) as HInv.
  pose proof (inv_local _ HInv _ _ Hi) as (_ & _ & _ & _ & _ & H5).
  pose proof (reachable_reads_below _ _ _ Hr Hi) as (_ & H7 & _).
  destruct H7 as (pc' & ch' & Hw).
  { destruct Hpc as [|[-> Hne]]; [by left|right]. split; [done|].
    destruct (H5 eq_refl) as [[_ ->]|[? _]]; done. }
  exists pc', ch'. split; [done|]. unfold Height. intros Hlt.
  pose proof (inv_local _ HInv _ _ Hw) as (H6 & _ & Hge & _).
  assert (pc' ≤ 6) as Hle.
  { destruct (decide (pc' ≤ 6)); [done|]. specialize (Hge ltac:(lia)). lia. }
  split; [by apply H6|done].
Qed.

(** X10: while [c.Height()+slop] does not overflow, that is for heights up
    to 2^64-4, [BlockSoonWaiter] sends [ErrTheDistantFuture] exactly when
    its target is greater than the height it has read plus 3. *)
Theorem BlockSoonWaiter_error_in_range cfg i target ctx pc cur w ch :
  reachable Empty sto cfg →
  pool cfg !! i = Some (go_BlockSoonWaiter target ctx pc cur w ch) →
  (0 ≤ cur)%Z → (cur + 3 < 2 ^ 64)%Z →
  Some ErrTheDistantFuture ∈ ch ↔ pc = 5 ∧ (target > cur + 3)%Z.
Proof.
  intros Hr Hi H0 H3.
  rewrite (BlockSoonWaiter_error Empty sto _ _ _ _ _ _ _ _ Hr Hi).
  by rewrite tooDistant_in_range.
Qed.

(** ** The channel of pending snapshots *)

Lemma gstep_pending j cb (pl : list (@goroutine Snapshot)) g sh g' sh' new :
  gstep sto j cb pl g sh = Some (g', sh', new) →
  is_snapshots g' = is_snapshots g ∧
  (∀ n, n ∈ new → is_snapshots n = false) ∧
  ((pendingSnapshots sh' = pendingSnapshots sh ∧
    (is_snapshots g = false → store sh' = store sh)) ∨
   (∃ ctx ps err p,
      g = go_snapshots ctx 0 ps err ∧ g' = go_snapshots ctx 1 (Some p) err ∧
      pendingSnapshots sh = p :: pendingSnapshots sh' ∧
      store sh' = store sh)).
Proof.
  intros H. gstep_inv H; simpl; (split; [done|]);
    (split; [intros;
             match goal with
             | Hn : _ ∈ [] |- _ => by apply not_elem_of_nil in Hn
             | Hn : _ ∈ [_] |- _ =>
                 by apply list_elem_of_singleton in Hn as ->
             end|]);
    first [ by left | right; eauto 10 ].
Qed.

Lemma pending_at_most_one cfg :
  reachable Empty sto cfg → length (pendingSnapshots (shared cfg)) ≤ 1.
Proof.
  intros Hr.
  induction Hr as [ctx st heights cfg err Hctx H|l cfg cfg' Hr IH H].
  - unfold NewChain in H. repeat case_match; simplify_eq; simpl; lia.
  - destruct l as [j cb|g0|j e|ps]; simpl in H.
    + destruct (pool cfg !! j) as [gj|] eqn:Hj; [|done]. simpl in H.
      destruct (gstep sto j cb (pool cfg) gj (shared cfg))
        as [[[g' sh'] new]|] eqn:Hs; [|done].
      simpl in H. simplify_eq. simpl.
      destruct (gstep_pending _ _ _ _ _ _ _ _ Hs)
        as (_ & _ & [[-> _]|(?&?&?&?&_&_&Hq&_)]); [done|].
      rewrite Hq in IH. simpl in IH. lia.
    + case_match; by simplify_eq.
    + repeat (case_match; simplify_option_eq); done.
    + case_match eqn:Hlen; [|done]. simplify_eq. simpl.
      apply Nat.ltb_lt in Hlen. rewrite length_app. simpl. lia.
Qed.

(** X11: the channel [c.pendingSnapshots] never holds more than the one
    request its capacity allows, and only the goroutine that saves
    snapshots takes a request out of it: a step that changes the channel
    is a send into the empty channel, or that goroutine's receive at its
    select, which takes the request at the head. *)
Theorem pendingSnapshots_one_taken_by_saver cfg :
  reachable Empty sto cfg →
  length (pendingSnapshots (shared cfg)) ≤ 1 ∧
  ∀ l cfg',
    step sto l cfg = Some cfg' →
    pendingSnapshots (shared cfg') ≠ pendingSnapshots (shared cfg) →
    (∃ ps, l = Send ps ∧ pendingSnapshots (shared cfg) = [] ∧
       pendingSnapshots (shared cfg') = [ps]) ∨
    (∃ j cb ctx ps err p,
       l = Run j cb ∧
       pool cfg !! j = Some (go_snapshots ctx 0 ps err) ∧
       pool cfg' !! j = Some (go_snapshots ctx 1 (Some p) err) ∧
       pendingSnapshots (shared cfg) = p :: pendingSnapshots (shared cfg')).
Proof.
  intros Hr. split; [by apply pending_at_most_one|].
  intros l cfg' H Hne. destruct l as [j cb|g0|j e|ps].
  - destruct (pool cfg !! j) as [gj|] eqn:Hj;
      [|by simpl in H; rewrite Hj in H].
    destruct (step_Run_inv _ _ _ _ _ _ Hj H) as (g' & sh' & new & Hs & ->).
    simpl in *.
    destruct (gstep_pending _ _ _ _ _ _ _ _ Hs)
      as (_ & _ & [[Heq _]|(ctx&ps&err&p& -> & -> &Hq&_)]); [done|].
    right. exists j, cb, ctx, ps, err, p. split; [done|]. split; [done|].
    split; [|done]. apply lookup_pool_step_eq. by eapply lookup_lt_Some.
  - simpl in H. case_match; [|done]. by simplify_eq.
  - simpl in H. repeat (case_match; simplify_option_eq); done.
  - simpl in H. case_match eqn:Hlen; [|done]. simplify_eq. simpl in *.
    left. exists ps. split; [done|]. apply Nat.ltb_lt in Hlen.
    destruct (pendingSnapshots (shared cfg)); [done|simpl in Hlen; lia].
Qed.

Lemma snapshots_origin l cfg cfg' i gi :
  step sto l cfg = Some cfg' →
  pool cfg' !! i = Some gi → is_snapshots gi = true →
  ∃ g0, pool cfg !! i = Some g0 ∧ is_snapshots g0 = true.
Proof.
  intros H Hi Hk. destruct l as [j cb|g0|j e|ps].
  - destruct (pool cfg !! j) as [gj|] eqn:Hj;
      [|by simpl in H; rewrite Hj in H].
    destruct (step_Run_inv _ _ _ _ _ _ Hj H) as (g' & sh' & new & Hs & ->).
    simpl in *. destruct (gstep_pending _ _ _ _ _ _ _ _ Hs) as (Hkind & Hnew & _).
    apply (lookup_pool_step _ _ _ _ _ _ (lookup_lt_Some _ _ _ Hj)) in Hi
      as [[-> ->]|[[Hne Hi]|[_ Hin]]].
    + exists gj. split; [done|congruence].
    + eauto.
    + rewrite (Hnew _ Hin) in Hk. done.
  - simpl in H. destruct (entry g0) eqn:He; [|done]. simplify_eq.
    simpl in *. apply lookup_app_Some in Hi as [Hi|[_ Hi]]; [eauto|].
    apply list_elem_of_lookup_2, list_elem_of_singleton in Hi as ->.
    destruct g0; done.
  - simpl in H. destruct (ctx_err e) eqn:He; [|done].
    destruct (pool cfg !! j) as [gj|] eqn:Hj; [|done]. simpl in H.
    destruct (cancel e gj) as [gj'|] eqn:Hc; [|done]. simpl in H.
    simplify_eq. simpl in *. destruct (decide (i = j)) as [->|Hne].
    + rewrite list_lookup_insert_eq in Hi by (by eapply lookup_lt_Some).
      simplify_eq. exists gj. split; [done|].
      destruct gj; simpl in Hc; repeat case_match; by simplify_eq.
    + rewrite list_lookup_insert_ne in Hi by done. eauto.
  - simpl in H. case_match; [|done]. simplify_eq. simpl in *. eauto.
Qed.

(** [NewChain] starts the one goroutine that saves snapshots, and no call
    starts another. *)
Lemma one_saver cfg i j gi gj :
  reachable Empty sto cfg →
  pool cfg !! i = Some gi → is_snapshots gi = true →
  pool cfg !! j = Some gj → is_snapshots gj = true →
  i = j.
Proof.
  intros Hr. revert i j gi gj.
  induction Hr as [ctx st heights cfg err Hctx H|l cfg cfg' Hr IH H];
    intros i j gi gj Hi Hki Hj Hkj.
  - unfold NewChain in H. repeat case_match; simplify_eq; simpl in *.
    all: repeat (destruct i as [|i]; simpl in *; simplify_eq).
    all: repeat (destruct j as [|j]; simpl in *; simplify_eq).
    all: done.
  - destruct (snapshots_origin _ _ _ _ _ H Hi Hki) as (gi0 & Hi0 & Hki0).
    destruct (snapshots_origin _ _ _ _ _ H Hj Hkj) as (gj0 & Hj0 & Hkj0).
    eauto.
Qed.

Lemma saver_returned_step l cfg cfg' k ctx ps err :
  reachable Empty sto cfg →
  pool cfg !! k = Some (go_snapshots ctx 4 ps err) →
  step sto l cfg = Some cfg' →
  (∃ ctx', pool cfg' !! k = Some (go_snapshots ctx' 4 ps err)) ∧
  pendingSnapshots (shared cfg) `prefix_of` pendingSnapshots (shared cfg') ∧
  store (shared cfg') = store (shared cfg).
Proof.
  intros Hr Hk H. destruct l as [j cb|g0|j e|p].
  - destruct (pool cfg !! j) as [gj|] eqn:Hj;
      [|by simpl in H; rewrite Hj in H].
    destruct (step_Run_inv _ _ _ _ _ _ Hj H) as (g' & sh' & new & Hs & ->).
    simpl. destruct (decide (j = k)) as [->|Hne].
    { rewrite Hk in Hj. by simplify_eq. }
    split; [exists ctx; by apply lookup_pool_step_ne|].
    assert (is_snapshots gj = false) as Hnot.
    { destruct (is_snapshots gj) eqn:Hkj; [|done]. exfalso. apply Hne.
      by eapply (one_saver cfg j k). }
    destruct (gstep_pending _ _ _ _ _ _ _ _ Hs)
      as (_ & _ & [[-> Hst]|(?&?&?&?& -> &_)]); [|done].
    split; [done|]. by apply Hst.
  - simpl in H. destruct (entry g0) eqn:He; [|done]. simplify_eq. simpl.
    split; [exists ctx; by apply lookup_app_l_Some|done].
  - simpl in H. destruct (ctx_err e) eqn:He; [|done].
    destruct (pool cfg !! j) as [gj|] eqn:Hj; [|done]. simpl in H.
    destruct (cancel e gj) as [gj'|] eqn:Hc; [|done]. simpl in H.
    simplify_eq. simpl. split; [|done].
    destruct (decide (j = k)) as [->|Hne].
    + rewrite Hk in Hj. simplify_eq.
      rewrite list_lookup_insert_eq by (by eapply lookup_lt_Some).
      simpl in Hc. destruct ctx; simplify_eq. eauto.
    + exists ctx. by rewrite list_lookup_insert_ne.
  - simpl in H. case_match; [|done]. simplify_eq. simpl.
    split; [eauto|]. split; [by apply prefix_app_r|done].
Qed.

(** X12: once the goroutine that saves snapshots has returned (its context
    is done), nothing receives from [c.pendingSnapshots] any more and
    nothing of this file calls the store: whatever happens next, the
    requests in the channel stay, so a full channel stays full and blocks
    every later send. *)
Theorem saver_returned_requests_stay ls cfg cfg' k ctx ps err :
  reachable Empty sto cfg →
  pool cfg !! k = Some (go_snapshots ctx 4 ps err) →
  run sto ls cfg = Some cfg' →
  pendingSnapshots (shared cfg) `prefix_of` pendingSnapshots (shared cfg') ∧
  store (shared cfg') = store (shared cfg) ∧
  (length (pendingSnapshots (shared cfg)) = 1 →
   pendingSnapshots (shared cfg') = pendingSnapshots (shared cfg) ∧
   ∀ p, step sto (Send p) cfg' = None).
Proof.
  intros Hr Hk Hrun.
  assert (Hmain :
    pendingSnapshots (shared cfg) `prefix_of` pendingSnapshots (shared cfg') ∧
    store (shared cfg') = store (shared cfg)).
  { revert cfg ctx Hr Hk Hrun.
    induction ls as [|l ls IH]; intros cfg ctx Hr Hk Hrun.
    - cbv in Hrun. by simplify_eq.
    - change (run sto (l :: ls) cfg) with (step sto l cfg ≫= run sto ls)
        in Hrun.
      destruct (step sto l cfg) as [cfg1|] eqn:Hs; [|done]. simpl in Hrun.
      destruct (saver_returned_step _ _ _ _ _ _ _ Hr Hk Hs)
        as ([ctx' Hk'] & Hpre & Hst).
      destruct (IH cfg1 ctx') as [Hpre' Hst'];
        [by eapply reachable_step|done..|].
      split; [by etrans|congruence]. }
  destruct Hmain as [Hpre Hst]. split; [done|]. split; [done|].
  intros Hlen.
  pose proof (run_reachable _ _ _ _ _ Hr Hrun) as Hr'.
  pose proof (pending_at_most_one cfg' Hr') as Hcap.
  apply prefix_length in Hpre as Hlen'.
  assert (pendingSnapshots (shared cfg') = pendingSnapshots (shared cfg))
    as Heq.
  { destruct Hpre as [k' Hk']. rewrite Hk', length_app in Hcap.
    destruct k'; [by rewrite app_nil_r in Hk'|simpl in Hcap; lia]. }
  split; [done|]. intros p. simpl. rewrite Heq, Hlen. done.
Qed.

(** ** A BlockSoonWaiter whose context is done *)

(** Past its [Lock], a [BlockSoonWaiter] whose context is done always has
    a statement to execute when it takes the context's branch of its
    select, and gets closer to its result. *)
Lemma soon_cancelled_step cfg i target e pc cur w ch :
  reachable Empty sto cfg →
  pool cfg !! i = Some (go_BlockSoonWaiter target (Some e) pc cur w ch) →
  pc ≠ 0 → pc ≠ 5 →
  ∃ cfg' pc' cur' w' ch',
    step sto (Run i false) cfg = Some cfg' ∧
    pool cfg' !! i =
      Some (go_BlockSoonWaiter target (Some e) pc' cur' w' ch') ∧
    pc' ≠ 0 ∧ steps_to_result pc' < steps_to_result pc ∧
    ∀ r, soon_result e pc' ch' r → soon_result e pc ch r.
Proof.
  intros Hr Hi H0 H5. pose proof (reachable_Inv _ _ _ Hr) as HInv.
  pose proof (inv_local _ HInv _ _ Hi) as (_ & Hch & _ & _ & _ & _).
  pose proof (reachable_reads_below _ _ _ Hr Hi) as (_ & _ & _ & _ & _ & H9).
  rewrite (Hch H5) in *.
  assert (Hlt : i < length (pool cfg)) by (by eapply lookup_lt_Some).
  assert (HL : critical (Snapshot:=Snapshot)
                 (go_BlockSoonWaiter target (Some e) pc cur w [])
               = true → cond_L (shared cfg) = Some i).
  { by apply (inv_holder _ HInv). }
  assert (pc = 1 ∨ pc = 2 ∨ pc = 3 ∨ pc = 4 ∨ pc = 6 ∨ pc = 7 ∨ pc = 8 ∨
          pc = 9) as Hpc by lia.
  destruct Hpc as [->|[->|[->|[->|[->|[->|[->| ->]]]]]]];
    simpl; rewrite Hi; simpl;
    try (unfold Unlock; rewrite (HL eq_refl); simpl);
    try (destruct (tooDistant target cur));
    eexists _, _, _, _, _; simpl;
    (split; [reflexivity|]); simpl;
    (split; [rewrite lookup_app_l by (by rewrite length_insert);
             by apply list_lookup_insert_eq|]);
    simpl; (split; [lia|]); (split; [lia|]);
    intros r Hres; simpl in *; naive_solver.
Qed.

Lemma soon_cancelled_runs k cfg i target e pc cur w ch :
  reachable Empty sto cfg →
  pool cfg !! i = Some (go_BlockSoonWaiter target (Some e) pc cur w ch) →
  pc ≠ 0 → steps_to_result pc ≤ k →
  ∃ n cfg' cur' w' r,
    n ≤ k ∧
    run sto (replicate n (Run i false)) cfg = Some cfg' ∧
    pool cfg' !! i =
      Some (go_BlockSoonWaiter target (Some e) 5 cur' w' [r]) ∧
    soon_result e pc ch r.
Proof.
  revert cfg pc cur w ch.
  induction k as [|k IH]; intros cfg pc cur w ch Hr Hi H0 Hk.
  all: destruct (decide (pc = 5)) as [->|H5].
  1,3: pose proof (inv_local _ (reachable_Inv _ _ _ Hr) _ _ Hi)
         as (_ & _ & _ & _ & _ & Hres);
       destruct (Hres eq_refl) as [[_ ->]|[_ [->|(e' & _ & ->)]]];
       exists 0, cfg; eexists _, _, _; (split; [lia|]);
       (split; [reflexivity|]); split; done.
  all: destruct (soon_cancelled_step _ _ _ _ _ _ _ _ Hr Hi H0 H5)
         as (cfg1 & pc' & cur' & w' & ch' & Hs & Hi1 & H0' & Hlt & Hback).
  - lia.
  - destruct (IH cfg1 pc' cur' w' ch')
      as (n & cfg' & c2 & w2 & r & Hn & Hrun & Hi' & Hres);
      [by eapply reachable_step|done|done|lia|].
    exists (S n), cfg', c2, w2, r. split; [lia|]. split; [|by auto].
    change (run sto (replicate (S n) (Run i false)) cfg)
      with (step sto (Run i false) cfg ≫= run sto (replicate n (Run i false))).
    by rewrite Hs.
Qed.

(** X13: a [BlockSoonWaiter] whose context is done does not hang, whatever
    the height is and with no help from any other call: from every
    configuration the chain can be in, at most six statements of the
    goroutine that holds the mutex (none when the mutex is free) and then
    at most seven statements of the [BlockSoonWaiter] goroutine itself,
    which takes the context's branch of its select, end with its one
    result sent. The result is the context's error once the test has let
    the goroutine pass, [ErrTheDistantFuture] when the test has stopped
    it, and nil only when the goroutine had already received from its
    [BlockWaiter]. *)
Theorem BlockSoonWaiter_cancelled_returns cfg i target e pc cur w ch :
  reachable Empty sto cfg →
  pool cfg !! i = Some (go_BlockSoonWaiter target (Some e) pc cur w ch) →
  ∃ m n cfg' cur' w' r,
    m ≤ 6 ∧ n ≤ 7 ∧
    run sto (holder_steps m cfg ++ replicate n (Run i false)) cfg =
      Some cfg' ∧
    pool cfg' !! i =
      Some (go_BlockSoonWaiter target (Some e) 5 cur' w' [r]) ∧
    (pc ≤ 3 → r = Some e ∨ r = Some ErrTheDistantFuture) ∧
    (pc = 4 → r = Some ErrTheDistantFuture) ∧
    (pc = 6 ∨ pc = 7 ∨ pc = 9 → r = Some e) ∧
    (pc = 8 → r = None).
Proof.
  intros Hr Hi.
  assert (Hcases : ∀ r, soon_result e pc ch r →
    (pc ≤ 3 → r = Some e ∨ r = Some ErrTheDistantFuture) ∧
    (pc = 4 → r = Some ErrTheDistantFuture) ∧
    (pc = 6 ∨ pc = 7 ∨ pc = 9 → r = Some e) ∧
    (pc = 8 → r = None)).
  { intros r Hres. split; [|split; [|split]].
    - intros Hle. destruct pc as [|[|[|[|]]]]; [exact Hres..|lia].
    - intros ->. exact Hres.
    - intros [->|[->| ->]]; exact Hres.
    - intros ->. exact Hres. }
  destruct (decide (pc = 0)) as [->|H0].
  2: { destruct (soon_cancelled_runs 7 _ _ _ _ _ _ _ _ Hr Hi H0)
         as (n & cfg' & c2 & w2 & r & Hn & Hrun & Hi' & Hres).
       { pose proof (reachable_reads_below _ _ _ Hr Hi)
           as (_ & _ & _ & _ & _ & H9).
         assert (pc = 1 ∨ pc = 2 ∨ pc = 3 ∨ pc = 4 ∨ pc = 5 ∨ pc = 6 ∨
                 pc = 7 ∨ pc = 8 ∨ pc = 9) as Hpc by lia.
         destruct Hpc as [->|[->|[->|[->|[->|[->|[->|[->| ->]]]]]]]];
           simpl; lia. }
       exists 0, n, cfg', c2, w2, r. rewrite holder_steps_none.
       split; [lia|]. split; [done|]. split; [done|]. split; [done|].
       by apply Hcases. }
  pose proof (reachable_Inv _ _ _ Hr) as HInv.
  pose proof (inv_local _ HInv _ _ Hi) as (_ & Hch & _).
  rewrite (Hch ltac:(lia)) in *.
  assert (Hfree : ∃ m cfg1,
    m ≤ 6 ∧ run sto (holder_steps m cfg) cfg = Some cfg1 ∧
    cond_L (shared cfg1) = None ∧
    pool cfg1 !! i = Some (go_BlockSoonWaiter target (Some e) 0 cur w [])).
  { destruct (cond_L (shared cfg)) as [j|] eqn:HL.
    - destruct (inv_held _ HInv _ HL) as (gj & Hj & Hc).
      assert (j ≠ i) as Hne.
      { intros ->. rewrite Hi in Hj. by simplify_eq. }
      pose proof (steps_to_unlock_bounds _ Hc) as Hb.
      destruct (mutex_released _ _ _ _ _ _ Hr HL Hj (le_n _))
        as (m & cfg1 & Hm & Hrun1 & HL1 & Hsame).
      exists m, cfg1. split; [lia|].
      rewrite (holder_steps_held _ _ _ HL). split; [done|].
      split; [done|]. by rewrite Hsame.
    - exists 0, cfg. rewrite holder_steps_none. split; [lia|]. done. }
  destruct Hfree as (m & cfg1 & Hm & Hrun1 & HL1 & Hi1).
  pose proof (run_reachable _ _ _ _ _ Hr Hrun1) as Hr1.
  assert (Hs : step sto (Run i false) cfg1 =
    Some (mkConfig (with_L (Some i) (shared cfg1))
            (<[i := go_BlockSoonWaiter target (Some e) 1 cur w []]>
               (pool cfg1) ++ []))).
  { simpl. rewrite Hi1. simpl. unfold Lock. by rewrite HL1. }
  destruct (soon_cancelled_runs 6 _ i target e 1 cur w []
              (reachable_step _ _ _ _ _ Hr1 Hs))
    as (n & cfg2 & c2 & w2 & r & Hn & Hrun2 & Hi2 & Hres);
    [simpl; rewrite app_nil_r; apply list_lookup_insert_eq;
     by eapply lookup_lt_Some|done|simpl; lia|].
  exists m, (S n), cfg2, c2, w2, r. split; [done|]. split; [lia|].
  split; [|split; [done|by apply Hcases]].
  rewrite run_app, Hrun1. simpl.
  change (run sto (Run i false :: replicate n (Run i false)) cfg1)
    with (step sto (Run i false) cfg1 ≫= run sto (replicate n (Run i false))).
  by rewrite Hs.
Qed.

End further_properties.

(** ** The further properties at concrete chains *)

Lemma readingConfig_reachable : reachable 7%nat emptyStore readingConfig.
Proof.
  eapply (run_reachable 7%nat emptyStore readingTrace freshConfig).
  - by eapply (reachable_NewChain 7%nat emptyStore None () None).
  - vm_compute. reflexivity.
Qed.

Lemma soonConfig_reachable : reachable 7%nat (storeAt block5 7) soonConfig.
Proof.
  eapply (run_reachable 7%nat (storeAt block5 7) soonTrace chain5Config).
  - by eapply (reachable_NewChain 7%nat (storeAt block5 7) None () None).
  - vm_compute. reflexivity.
Qed.

Lemma soonDoneConfig_reachable :
  reachable 7%nat (storeAt block5 7) soonDoneConfig.
Proof.
  eapply (run_reachable 7%nat (storeAt block5 7) (replicate 2 (Run 1 false))
            soonConfig).
  - exact soonConfig_reachable.
  - vm_compute. reflexivity.
Qed.

Lemma savingConfig_reachable : reachable 7%nat (brokenStore 1) savingConfig.
Proof.
  eapply (reachable_step 7%nat (brokenStore 1)
            (Send (mkPending 1 (Some 7%nat))) brokenConfig).
  - by eapply (reachable_NewChain 7%nat (brokenStore 1) None [] None).
  - reflexivity.
Qed.

Lemma stoppedConfig_reachable : reachable 7%nat (brokenStore 1) stoppedConfig.
Proof.
  eapply (run_reachable 7%nat (brokenStore 1) stoppedTrace brokenConfig).
  - by eapply (reachable_NewChain 7%nat (brokenStore 1) None [] None).
  - vm_compute. reflexivity.
Qed.

(** X2 at [readingConfig]: the [State()] call is inside its critical
    section and holds the mutex. *)
Lemma mutual_exclusion_witness :
  2%nat = 2%nat ∧ cond_L (shared readingConfig) = Some 2%nat.
Proof.
  apply (mutual_exclusion 7%nat emptyStore readingConfig 2 2
           (go_State 1 None 0) (go_State 1 None 0)
           readingConfig_reachable);
    reflexivity.
Defined.

(** X3 at [readingConfig]: the [State()] call gives the mutex up. *)
Lemma mutex_holder_releases_witness :
  ∃ m cfg',
    (m ≤ 6)%nat ∧
    run emptyStore (replicate m (Run 2 false)) readingConfig = Some cfg' ∧
    cond_L (shared cfg') = None.
Proof.
  apply (mutex_holder_releases 7%nat emptyStore readingConfig 2
           readingConfig_reachable).
  reflexivity.
Defined.

(** X4 at a chain of height 0: [setState] with the block at height 5. *)
Lemma setState_advancing_witness :
  setState (Some block5) (Some 8%nat) (mkChainState 0 None (Some 7%nat)) =
  (mkChainState 5 (Some block5) (Some 8%nat), true).
Proof.
  apply (setState_advancing_wakes_all emptyStore block5 (Some 8%nat)
           (mkChainState 0 None (Some 7%nat))).
  simpl. lia.
Defined.

(** X5 at [waitingConfig]: the height is 5, the waiter is for height 3. *)
Lemma BlockWaiter_reached_witness :
  run (storeAt block5 7) (replicate 4 (Run 1 false)) waitingConfig =
  Some (mkConfig (shared waitingConfig)
          (<[1%nat := go_BlockWaiter 3 8 [()]]> (pool waitingConfig))).
Proof.
  apply (BlockWaiter_reached_sends_at_once (storeAt block5 7)
           waitingConfig 1 3).
  - simpl. lia.
  - reflexivity.
  - reflexivity.
Defined.

(** X6 at [parkingConfig]: the height is 0, the waiter is for height 3. *)
Lemma BlockWaiter_parks_witness :
  ∃ m cfg',
    run emptyStore (replicate m (Run 1 false)) parkingConfig = Some cfg' ∧
    pool cfg' = <[1%nat := go_BlockWaiter 3 4 []]> (pool parkingConfig) ∧
    shared cfg' =
      with_notify (cond_notify (shared parkingConfig) ++ [1%nat])
        (shared parkingConfig) ∧
    ∀ choice, step emptyStore (Run 1 choice) cfg' = None.
Proof.
  apply (BlockWaiter_below_target_parks emptyStore parkingConfig 1 3 0).
  - simpl. lia.
  - reflexivity.
  - simpl. apply not_elem_of_nil.
  - reflexivity.
  - left. reflexivity.
Defined.

(** X7 at [soonConfig]: [BlockSoonWaiter] has read the height 5. *)
Lemma Height_never_reads_ahead_witness :
  5 ≤ Height (state (shared soonConfig)).
Proof.
  apply (proj2 (Height_never_reads_ahead 7%nat (storeAt block5 7)
                  soonConfig 1 soonConfig_reachable)
           7 (Some Canceled) 7%nat 5 2%nat []).
  - reflexivity.
  - lia.
Defined.

(** X8 at [soonDoneConfig]: the one value sent is the context's error. *)
Lemma BlockSoonWaiter_result_witness :
  (5%nat ≠ 5%nat ∧ [Some Canceled] = []) ∨
  (5%nat = 5%nat ∧
   ((tooDistant 7 5 = true ∧ [Some Canceled] = [Some ErrTheDistantFuture]) ∨
    (tooDistant 7 5 = false ∧ [Some Canceled] = [None] ∧
     7 ≤ Height (state (shared soonDoneConfig))) ∨
    (tooDistant 7 5 = false ∧
     ∃ e, [Some Canceled] = [Some e] ∧ Some Canceled = Some e ∧
          ctx_err e = true))).
Proof.
  apply (BlockSoonWaiter_result 7%nat (storeAt block5 7) soonDoneConfig 1
           7 (Some Canceled) 5 5 2 [Some Canceled]
           soonDoneConfig_reachable).
  reflexivity.
Defined.

(** X9 at [soonDoneConfig]: [BlockSoonWaiter(ctx, 7)] has returned with
    the context's error, its [BlockWaiter] still sleeps. *)
Lemma BlockSoonWaiter_leaves_witness :
  ∃ pc' ch',
    pool soonDoneConfig !! 2%nat = Some (go_BlockWaiter 7 pc' ch') ∧
    (Height (state (shared soonDoneConfig)) < 7 → ch' = [] ∧ (pc' ≤ 6)%nat).
Proof.
  apply (BlockSoonWaiter_leaves_its_waiter 7%nat (storeAt block5 7)
           soonDoneConfig 1 7 (Some Canceled) 5 5 2 [Some Canceled]
           soonDoneConfig_reachable).
  - reflexivity.
  - right. split; [reflexivity|discriminate].
Defined.

(** X10 at [soonDoneConfig]: 7 is not greater than 5 + 3, and the error
    sent is not [ErrTheDistantFuture]. *)
Lemma BlockSoonWaiter_error_witness :
  Some ErrTheDistantFuture ∈ [Some Canceled] ↔ 5%nat = 5%nat ∧ 7 > 5 + 3.
Proof.
  apply (BlockSoonWaiter_error_in_range 7%nat (storeAt block5 7)
           soonDoneConfig 1 7 (Some Canceled) 5 5 2 [Some Canceled]
           soonDoneConfig_reachable).
  - reflexivity.
  - lia.
  - lia.
Defined.

(** X11 at [savingConfig]: one request is in the channel. *)
Lemma pendingSnapshots_witness :
  (length (pendingSnapshots (shared savingConfig)) ≤ 1)%nat.
Proof.
  apply (proj1 (pendingSnapshots_one_taken_by_saver 7%nat (brokenStore 1)
                  savingConfig savingConfig_reachable)).
Defined.

(** X12 at [stoppedConfig]: after a later [Height()] call the request is
    still in the channel and a send blocks. *)
Lemma saver_returned_witness :
  ∃ cfg',
    run (brokenStore 1) (Call (go_Height 0 None) :: replicate 3 (Run 1 false))
      stoppedConfig = Some cfg' ∧
    pendingSnapshots (shared cfg') = [mkPending 1 (Some 7%nat)] ∧
    step (brokenStore 1) (Send (mkPending 1 (Some 8%nat))) cfg' = None.
Proof.
  eexists. split; [vm_compute; reflexivity|].
  destruct (saver_returned_requests_stay 7%nat (brokenStore 1)
              (Call (go_Height 0 None) :: replicate 3 (Run 1 false))
              stoppedConfig
              (default stoppedConfig
                 (run (brokenStore 1)
                    (Call (go_Height 0 None) :: replicate 3 (Run 1 false))
                    stoppedConfig))
              0 (Some Canceled) None None stoppedConfig_reachable
              eq_refl eq_refl) as (_ & _ & Hfull).
  destruct (Hfull eq_refl) as [Hsame Hsend].
  split; [exact Hsame|apply Hsend].
Defined.

(** X13 at [soonConfig]: the mutex is free, and the cancelled
    [BlockSoonWaiter(ctx, 7)] sends the context's error by its own
    statements although the height stays at 5. *)
Lemma BlockSoonWaiter_cancelled_witness :
  ∃ m n cfg' cur' w' r,
    (m ≤ 6)%nat ∧ (n ≤ 7)%nat ∧
    run (storeAt block5 7)
      (holder_steps m soonConfig ++ replicate n (Run 1 false)) soonConfig =
      Some cfg' ∧
    pool cfg' !! 1%nat =
      Some (go_BlockSoonWaiter 7 (Some Canceled) 5 cur' w' [r]) ∧
    r = Some Canceled.
Proof.
  destruct (BlockSoonWaiter_cancelled_returns 7%nat (storeAt block5 7)
              soonConfig 1 7 Canceled 7 5 2 [] soonConfig_reachable
              eq_refl)
    as (m & n & cfg' & cur' & w' & r & Hm & Hn & Hrun & Hi & _ & _ & Hr & _).
  exists m, n, cfg', cur', w', r.
  split; [exact Hm|]. split; [exact Hn|]. split; [exact Hrun|].
  split; [exact Hi|]. apply Hr. right. left. reflexivity.
Defined.
